(** * merge_to_docx.py: the markdown-to-document converter

    A shallow embedding of [src/merge_to_docx.py].  Python strings are
    lists of Unicode code points, the python-docx document is the list of
    blocks appended to it, and an exception raised while a file is being
    processed is an explicit outcome next to the document it leaves
    behind (the document object is mutated in place, so whatever was
    appended before the exception stays). *)

From Stdlib Require Import String Ascii.
From stdpp Require Import base numbers list relations.

Open Scope nat_scope.

(** ** Python strings *)

(** A character is a code point; a [str] is a list of them. *)
Abbreviation char := N (only parsing).
Abbreviation str := (list N) (only parsing).

(** String literals of the source, written as Rocq strings. *)
Definition lit (s : string) : str :=
  N_of_ascii <$> list_ascii_of_string s.

Definition ch_newline : char := 10%N.
Definition ch_space : char := 32%N.
Definition ch_hash : char := 35%N.
Definition ch_star : char := 42%N.
Definition ch_pipe : char := 124%N.

Module Py.

(** [str.isspace] on one character: the code points that [strip] and
    [rstrip] remove when called without argument. *)
Definition isspace (c : char) : bool :=
  ((9 <=? c) && (c <=? 13) || (28 <=? c) && (c <=? 32)
   || (c =? 133) || (c =? 160) || (c =? 5760)
   || (8192 <=? c) && (c <=? 8202)
   || (c =? 8232) || (c =? 8233) || (c =? 8239) || (c =? 8287)
   || (c =? 12288))%N.

(** [s.lstrip()] *)
Fixpoint lstrip (s : str) : str :=
  match s with
  | c :: s' => if isspace c then lstrip s' else s
  | [] => []
  end.

(** [s.rstrip()] *)
Fixpoint rstrip (s : str) : str :=
  match s with
  | c :: s' =>
      match rstrip s' with
      | [] => if isspace c then [] else [c]
      | r => c :: r
      end
  | [] => []
  end.

(** [s.strip()] *)
Definition strip (s : str) : str := rstrip (lstrip s).

(** [s.startswith(p)] *)
Fixpoint startswith (p s : str) : bool :=
  match p, s with
  | [], _ => true
  | a :: p', b :: s' => bool_decide (a = b) && startswith p' s'
  | _ :: _, [] => false
  end.

(** [s.endswith(p)] *)
Definition endswith (p s : str) : bool :=
  startswith (reverse p) (reverse s).

(** [c in s] for a one-character string [c] *)
Definition contains_char (c : char) (s : str) : bool :=
  bool_decide (c ∈ s).

(** [p in s]: [p] occurs in [s] as a substring *)
Fixpoint contains (p s : str) : bool :=
  startswith p s ||
  match s with
  | _ :: s' => contains p s'
  | [] => false
  end.

(** [s.split(sep)] for a one-character separator *)
Fixpoint split (sep : char) (s : str) : list str :=
  match s with
  | [] => [[]]
  | c :: s' =>
      if bool_decide (c = sep) then [] :: split sep s'
      else match split sep s' with
           | field :: fields => (c :: field) :: fields
           | [] => [[c]]
           end
  end.

(** Slices with the bounds the source uses.  [slice lo hi s] is
    [s[lo:hi]] for non-negative bounds, [slice_from lo s] is [s[lo:]]
    and [slice_neg lo k s] is [s[lo:-k]] for [k > 0]: the upper bound
    counts from the end and stops at 0, and an upper bound at or below
    the lower one gives the empty sequence. *)
Definition slice {A} (lo hi : nat) (s : list A) : list A :=
  take (hi - lo) (drop lo s).

Definition slice_from {A} (lo : nat) (s : list A) : list A :=
  drop lo s.

Definition slice_neg {A} (lo k : nat) (s : list A) : list A :=
  slice lo (length s - k) s.

End Py.

(** ** The regular expression of [parse_inline_markdown]

    The pattern is one group of two alternatives, [\*\*.*?\*\*] and
    [\*.*?\*], searched with [re.finditer].  [.] is any character but a
    newline, [.*?] is lazy, and the first alternative is tried before the
    second at every position. *)

Module Re.

(** [.*?\*] at the head of [s]: the number of characters the lazy star
    takes, which is the offset of the first asterisk, as long as no
    newline comes before it. *)
Fixpoint lazy_to_star (s : str) : option nat :=
  match s with
  | [] => None
  | c :: s' =>
      if bool_decide (c = ch_star) then Some 0
      else if bool_decide (c = ch_newline) then None
      else S <$> lazy_to_star s'
  end.

(** [.*?\*\*] at the head of [s]: the offset of the first pair of
    asterisks with no newline before it. *)
Fixpoint lazy_to_star2 (s : str) : option nat :=
  match s with
  | [] => None
  | c :: s' =>
      if Py.startswith [ch_star; ch_star] s then Some 0
      else if bool_decide (c = ch_newline) then None
      else S <$> lazy_to_star2 s'
  end.

(** The length of the match of [pattern] that starts at the head of
    [s], if there is one: [\*\*.*?\*\*] first, then [\*.*?\*]. *)
Definition match_here (s : str) : option nat :=
  let bold :=
    if Py.startswith [ch_star; ch_star] s
    then (λ k, k + 4) <$> lazy_to_star2 (drop 2 s)
    else None in
  match bold with
  | Some n => Some n
  | None =>
      if Py.startswith [ch_star] s
      then (λ k, k + 2) <$> lazy_to_star (drop 1 s)
      else None
  end.

(** [re.finditer(pattern, text)] as the list of [(m.start(), m.end())]:
    the leftmost match from each position, the search resuming at the
    end of the previous match.  [skip] counts the characters of the
    current match still to step over, [pos] is the index of the head of
    [s] in [text]. *)
Fixpoint finditer_from (skip pos : nat) (s : str) : list (nat * nat) :=
  match s with
  | [] => []
  | _ :: s' =>
      match skip with
      | S k => finditer_from k (S pos) s'
      | 0 =>
          match match_here s with
          | Some n => (pos, pos + n) :: finditer_from (n - 1) (S pos) s'
          | None => finditer_from 0 (S pos) s'
          end
      end
  end.

Definition finditer (text : str) : list (nat * nat) :=
  finditer_from 0 0 text.

End Re.

(** ** [parse_inline_markdown] *)

(** A run of the result: [(text, bold, italic)]. *)
Definition run : Type := str * bool * bool.

Definition run_text (r : run) : str := r.1.1.
Definition run_bold (r : run) : bool := r.1.2.
Definition run_italic (r : run) : bool := r.2.

(** One iteration of the [for match in re.finditer(...)] loop, on the
    state [(parts, current_pos)]. *)
Definition inline_step (text : str) (st : list run * nat) (m : nat * nat)
  : list run * nat :=
  let '(parts, current_pos) := st in
  let '(m_start, m_end) := m in
  let parts :=
    if bool_decide (current_pos < m_start)
    then parts ++ [(Py.slice current_pos m_start text, false, false)]
    else parts in
  let matched_text := Py.slice m_start m_end text in
  let parts :=
    if Py.startswith (lit "**") matched_text
       && Py.endswith (lit "**") matched_text
    then parts ++ [(Py.slice_neg 2 2 matched_text, true, false)]
    else if Py.startswith (lit "*") matched_text
            && Py.endswith (lit "*") matched_text
    then parts ++ [(Py.slice_neg 1 1 matched_text, false, true)]
    else parts in
  (parts, m_end).

Definition parse_inline_markdown (text : str) : list run :=
  let '(parts, current_pos) :=
    foldl (inline_step text) ([], 0) (Re.finditer text) in
  let parts :=
    if bool_decide (current_pos < length text)
    then parts ++ [(Py.slice_from current_pos text, false, false)]
    else parts in
  match parts with
  | [] => [(text, false, false)]
  | _ => parts
  end.

(** ** The document

    The blocks that the converter appends to the python-docx document,
    in the order of the calls.  Fonts, sizes, spacing and the table style
    are functions of the block kind (and of the heading level) and are
    left out; the bold header formatting of a table cell is kept as
    [cell_header].  The base document is taken to define the styles that
    the source names ([Normal], [Heading 1] to [Heading 4]), as the
    default template of python-docx does. *)

Record cell : Type := { cell_text : str; cell_header : bool }.

Definition empty_cell : cell := {| cell_text := []; cell_header := false |}.

Inductive block : Type :=
| Heading (text : str) (level : nat)
| Paragraph (runs : list run)
| Table (grid : list (list cell))
| PageBreak.

Abbreviation document := (list block) (only parsing).

(** Exceptions that leave [process_markdown_file]. *)
Inductive exn : Type :=
| IndexError
| ValueError
| FileNotFoundError
| OtherError.

Inductive result (A : Type) : Type :=
| Ok (a : A)
| Raise (e : exn).

Arguments Ok {A} a.
Arguments Raise {A} e.

(** What python-docx does with a text it is given.  A run takes its text
    piece by piece: a tab, a newline or a carriage return closes the piece
    before it and becomes an element of its own, and a piece is stored
    through lxml, which raises [ValueError] when the piece holds a
    character that XML text cannot hold.  The pieces stored before that
    stay in the run. *)
Module Docx.

(** The characters lxml accepts in a text: tab, newline, carriage return
    and everything from the space on, but no surrogate and neither U+FFFE
    nor U+FFFF. *)
Definition xml_char (c : char) : bool :=
  ((c =? 9) || (c =? 10) || (c =? 13) || (32 <=? c))%N
  && negb ((55296 <=? c) && (c <=? 57343))%N
  && negb ((c =? 65534) || (c =? 65535))%N.

Definition is_break (c : char) : bool :=
  ((c =? 9) || (c =? 10) || (c =? 13))%N.

(** Storing the buffered piece [bfr] behind what is [written]. *)
Definition flush (written bfr : str) : str * result unit :=
  if forallb xml_char bfr then (written ++ bfr, Ok ())
  else (written, Raise ValueError).

(** The scan of the text, character by character; a break is kept as the
    character that asked for it. *)
Fixpoint append_text (text written bfr : str) : str * result unit :=
  match text with
  | [] => flush written bfr
  | c :: text' =>
      if is_break c then
        match flush written bfr with
        | (written', Ok _) => append_text text' (written' ++ [c]) []
        | (written', Raise e) => (written', Raise e)
        end
      else append_text text' written (bfr ++ [c])
  end.

(** [run.text = text] on a new run: the text the run holds afterwards,
    and whether the assignment returned. *)
Definition set_text (text : str) : str * result unit :=
  append_text text [] [].

End Docx.

(** [doc.add_heading(text, level)] adds a paragraph, gives it a run with
    the text and then makes it a heading; when the text cannot be stored
    the paragraph stays behind as it is, with what its run holds. *)
Definition add_heading (doc : document) (text : str) (level : nat)
  : document * result unit :=
  match Docx.set_text text with
  | (_, Ok _) => (doc ++ [Heading text level], Ok ())
  | (written, Raise e) =>
      (doc ++ [Paragraph [(written, false, false)]], Raise e)
  end.

(** The [for part_text, part_bold, part_italic in parts] loop of
    [add_paragraph]: [para.add_run(part_text)] adds the run and then
    stores its text, and the formatting follows only when that
    returned. *)
Fixpoint add_runs (parts : list run) (bold italic : bool)
    (runs : list run) : list run * result unit :=
  match parts with
  | [] => (runs, Ok ())
  | part :: parts' =>
      match Docx.set_text (run_text part) with
      | (_, Ok _) =>
          add_runs parts' bold italic
            (runs ++ [(run_text part, bold || run_bold part,
                       italic || run_italic part)])
      | (written, Raise e) => (runs ++ [(written, false, false)], Raise e)
      end
  end.

Definition add_paragraph (doc : document) (text : str)
    (bold italic : bool) : document * result unit :=
  let parts := parse_inline_markdown text in
  match add_runs parts bold italic [] with
  | (runs, r) => (doc ++ [Paragraph runs], r)
  end.

Definition add_page_break (doc : document) : document :=
  doc ++ [PageBreak].

(** ** [add_table_from_markdown] *)

(** The [while idx < len(lines) and '|' in lines[idx]] loop; [rest] is
    [lines[idx:]]. *)
Fixpoint collect_table_lines (rest : list str) (idx : nat)
    (table_lines : list str) : nat * list str :=
  match rest with
  | line :: rest' =>
      if Py.contains_char ch_pipe line then
        collect_table_lines rest' (S idx)
          (if negb (Py.startswith (lit "|---") (Py.strip line))
           then table_lines ++ [line] else table_lines)
      else (idx, table_lines)
  | [] => (idx, table_lines)
  end.

(** [[cell.strip() for cell in line.split('|')[1:-1]]] *)
Definition parse_row (line : str) : list str :=
  Py.strip <$> Py.slice_neg 1 1 (Py.split ch_pipe line).

(** [doc.add_table(rows, cols)]: a grid of empty cells. *)
Definition new_table (rows cols : nat) : list (list cell) :=
  replicate rows (replicate cols empty_cell).

(** [cell.text = cell_text] in row [i], with the header formatting of
    [if i == 0]. *)
Definition written_cell (i : nat) (cell_text : str) : cell :=
  {| cell_text := cell_text; cell_header := bool_decide (i = 0) |}.

(** The inner [for j, cell_text in enumerate(row_data)] loop on row [i]
    of the table.  [table.rows[i].cells[j]] raises [IndexError] outside
    the grid, and [cell.text = cell_text] raises [ValueError] when the
    text cannot be stored: the cell then holds what was stored and is not
    formatted.  The cells written before keep their text. *)
Fixpoint fill_row (table : list (list cell)) (i j : nat)
    (row_data : list str) : list (list cell) * result unit :=
  match row_data with
  | [] => (table, Ok ())
  | cell_text :: row_data' =>
      match table !! i with
      | None => (table, Raise IndexError)
      | Some row =>
          match row !! j with
          | None => (table, Raise IndexError)
          | Some _ =>
              match Docx.set_text cell_text with
              | (_, Ok _) =>
                  let c := written_cell i cell_text in
                  fill_row (<[i := <[j := c]> row]> table) i (S j) row_data'
              | (written, Raise e) =>
                  let c := {| cell_text := written; cell_header := false |} in
                  (<[i := <[j := c]> row]> table, Raise e)
              end
          end
      end
  end.

(** The outer [for i, row_data in enumerate(rows)] loop. *)
Fixpoint fill_table (table : list (list cell)) (i : nat)
    (rows : list (list str)) : list (list cell) * result unit :=
  match rows with
  | [] => (table, Ok ())
  | row_data :: rows' =>
      match fill_row table i 0 row_data with
      | (table', Ok _) => fill_table table' (S i) rows'
      | (table', Raise e) => (table', Raise e)
      end
  end.

(** The table is appended to the document when it is created and filled
    in place afterwards, so an exception during the fill leaves the
    partly filled table in the document and skips the spacer paragraph. *)
Definition add_table_from_markdown (doc : document) (lines : list str)
    (start_idx : nat) : document * result nat :=
  let '(idx, table_lines) :=
    collect_table_lines (drop start_idx lines) start_idx [] in
  match table_lines with
  | [] => (doc, Ok idx)
  | _ :: _ =>
      let rows := parse_row <$> table_lines in
      let table := new_table (length rows) (length (default [] (head rows))) in
      match fill_table table 0 rows with
      | (table', Ok _) => (doc ++ [Table table'; Paragraph []], Ok idx)
      | (table', Raise e) => (doc ++ [Table table'], Raise e)
      end
  end.

(** ** [process_markdown_file] *)

(** The outcome of one iteration of the [while i < len(lines)] loop. *)
Inductive step_result : Type :=
| Next (i : nat) (doc : document)
| Raised (doc : document) (e : exn).

(** The test of the table branch:
    ['|' in line and i + 1 < len(lines) and '|---' in lines[i + 1]]. *)
Definition table_start (lines : list str) (i : nat) (line : str) : bool :=
  Py.contains_char ch_pipe line
  && match lines !! (i + 1) with
     | Some next => Py.contains (lit "|---") next
     | None => false
     end.

(** How an iteration ends after a call that may raise. *)
Definition after_call (i : nat) (out : document * result unit)
  : step_result :=
  match out with
  | (doc, Ok _) => Next i doc
  | (doc, Raise e) => Raised doc e
  end.

(** The body of the loop at index [i], for [lines[i] = raw]. *)
Definition loop_body (lines : list str) (i : nat) (raw : str)
    (doc : document) : step_result :=
  let line := Py.rstrip raw in
  if bool_decide (line = []) then Next (i + 1) doc
  else if bool_decide (Py.strip line = lit "---") then Next (i + 1) doc
  else if Py.startswith (lit "# ") line then
    after_call (i + 1) (add_heading doc (Py.slice_from 2 line) 1)
  else if Py.startswith (lit "## ") line then
    after_call (i + 1) (add_heading doc (Py.slice_from 3 line) 2)
  else if Py.startswith (lit "### ") line then
    after_call (i + 1) (add_heading doc (Py.slice_from 4 line) 3)
  else if Py.startswith (lit "#### ") line then
    after_call (i + 1) (add_heading doc (Py.slice_from 5 line) 4)
  else if table_start lines i line then
    match add_table_from_markdown doc lines i with
    | (doc', Ok idx) => Next idx doc'
    | (doc', Raise e) => Raised doc' e
    end
  else if bool_decide (Py.strip line ≠ []) then
    after_call (i + 1) (add_paragraph doc line false false)
  else Next (i + 1) doc.

(** The loop itself.  The source gives no bound on the number of
    iterations, so the model takes fuel and answers [None] when it runs
    out; [lines !! i] is [None] exactly when [i < len(lines)] fails. *)
Fixpoint process_loop (fuel : nat) (lines : list str) (i : nat)
    (doc : document) : option (document * result unit) :=
  match fuel with
  | 0 => None
  | S fuel' =>
      match lines !! i with
      | None => Some (doc, Ok ())
      | Some raw =>
          match loop_body lines i raw doc with
          | Next i' doc' => process_loop fuel' lines i' doc'
          | Raised doc' e => Some (doc', Raise e)
          end
      end
  end.

(** [process_markdown_file] after [lines = f.readlines()]. *)
Definition process_lines (doc : document) (lines : list str)
  : option (document * result unit) :=
  process_loop (S (length lines)) lines 0 doc.

(** The files on disk: [readlines()] of a path, or the exception that
    [open] or the decoding raises. *)
Abbreviation filesystem := (str → result (list str)) (only parsing).

Definition process_markdown_file (fs : filesystem) (doc : document)
    (filepath : str) : option (document * result unit) :=
  match fs filepath with
  | Raise e => Some (doc, Raise e)
  | Ok lines => process_lines doc lines
  end.

(** ** [main] *)

(** The [for md_file in markdown_files] loop with its [try]: the page
    break follows a call that returned, and both handlers only print. *)
Fixpoint merge_files (fs : filesystem) (doc : document)
    (markdown_files : list str) : option document :=
  match markdown_files with
  | [] => Some doc
  | md_file :: files' =>
      match process_markdown_file fs doc md_file with
      | None => None
      | Some (doc', Ok _) => merge_files fs (add_page_break doc') files'
      | Some (doc', Raise FileNotFoundError) => merge_files fs doc' files'
      | Some (doc', Raise _) => merge_files fs doc' files'
      end
  end.

(** [main], up to the document that is saved.  [input_docx] is the
    content of the base document, [None] when loading it raises; the list
    of files is a constant of the source and a parameter here. *)
Definition main (input_docx : option document) (fs : filesystem)
    (markdown_files : list str) : option document :=
  let doc := default [] input_docx in
  let doc := add_page_break doc in
  merge_files fs doc markdown_files.

(** ** Vocabulary of the properties *)

(** The input line with every asterisk removed. *)
Definition without_stars (s : str) : str :=
  filter (λ c, c ≠ ch_star) s.

(** The texts of the runs, concatenated in order. *)
Definition runs_text (runs : list run) : str :=
  concat (run_text <$> runs).

(** The matches of [finditer], seen from [current_pos]: in order,
    disjoint, inside [text], each beginning and ending with an
    asterisk. *)
Fixpoint matches_from (text : str) (cur : nat) (ms : list (nat * nat))
  : Prop :=
  match ms with
  | [] => True
  | (a, b) :: ms' =>
      cur ≤ a ∧ a < b ≤ length text ∧
      [ch_star] `prefix_of` Py.slice a b text ∧
      [ch_star] `suffix_of` Py.slice a b text ∧
      matches_from text b ms'
  end.

(** A line as [readlines] returns it, with its newline. *)
Definition line_of (s : string) : str := lit s ++ [ch_newline].

(** The lines that [add_table_from_markdown] keeps from index
    [start_idx] on, and their rows of cells. *)
Definition table_lines_at (lines : list str) (start_idx : nat) : list str :=
  (collect_table_lines (drop start_idx lines) start_idx []).2.

Definition table_rows_at (lines : list str) (start_idx : nat)
  : list (list str) :=
  parse_row <$> table_lines_at lines start_idx.

(** The index that [add_table_from_markdown] returns. *)
Definition table_end_at (lines : list str) (start_idx : nat) : nat :=
  (collect_table_lines (drop start_idx lines) start_idx []).1.

(** A row of the table after the fill: the cells written from
    [row_data], then the cells that were never touched. *)
Definition filled_row (cols i : nat) (row_data : list str) : list cell :=
  (written_cell i <$> row_data)
  ++ replicate (cols - length row_data) empty_cell.

(** Page breaks in a document. *)
Definition is_page_break (b : block) : bool :=
  match b with
  | PageBreak => true
  | _ => false
  end.

Definition page_breaks (doc : document) : nat :=
  length (filter is_page_break doc).

(** The blocks that one input file adds to a fresh document, and
    whether [process_markdown_file] returned for it (the alternative is
    an exception). *)
Definition file_ops (fs : filesystem) (md_file : str) : list block :=
  match process_markdown_file fs [] md_file with
  | Some (ops, _) => ops
  | None => []
  end.

Definition finished (fs : filesystem) (md_file : str) : bool :=
  match process_markdown_file fs [] md_file with
  | Some (_, Ok _) => true
  | _ => false
  end.

(** What [main] appends for one input file. *)
Definition file_blocks (fs : filesystem) (md_file : str) : list block :=
  file_ops fs md_file ++ (if finished fs md_file then [PageBreak] else []).

(** An iteration started on [doc] instead of the empty document. *)
Definition on_document (doc : document) (sr : step_result) : step_result :=
  match sr with
  | Next i d => Next i (doc ++ d)
  | Raised d e => Raised (doc ++ d) e
  end.

(** The line [raw] at index [i] takes the table branch of the loop. *)
Definition table_branch (lines : list str) (i : nat) (raw : str) : bool :=
  let line := Py.rstrip raw in
  negb (bool_decide (line = []))
  && negb (bool_decide (Py.strip line = lit "---"))
  && negb (Py.startswith (lit "# ") line)
  && negb (Py.startswith (lit "## ") line)
  && negb (Py.startswith (lit "### ") line)
  && negb (Py.startswith (lit "#### ") line)
  && table_start lines i line.

(** The loop of [process_markdown_file] as a transition system on
    [(i, doc)]. *)
Inductive loop_step (lines : list str)
  : nat * document → nat * document → Prop :=
| loop_step_next i raw doc i' doc' :
    lines !! i = Some raw →
    loop_body lines i raw doc = Next i' doc' →
    loop_step lines (i, doc) (i', doc').

Inductive loop_halts (lines : list str)
  : nat * document → document * result unit → Prop :=
| loop_halts_end i doc :
    lines !! i = None →
    loop_halts lines (i, doc) (doc, Ok ())
| loop_halts_raise i raw doc doc' e :
    lines !! i = Some raw →
    loop_body lines i raw doc = Raised doc' e →
    loop_halts lines (i, doc) (doc', Raise e).

(** The text between the delimiters of a match of [\*\*.*?\*\*]: no
    newline, no two asterisks in a row and no asterisk at its end (the
    lazy star stops at the first closing pair). *)
Definition bold_inner (t : str) : Prop :=
  (ch_newline ∉ t) ∧ Py.contains (lit "**") (t ++ [ch_star]) = false.

(** The text between the delimiters of a match of [\*.*?\*]. *)
Definition italic_inner (t : str) : Prop :=
  (ch_star ∉ t) ∧ (ch_newline ∉ t).

(** A match of the pattern, by the alternative that produced it. *)
Definition span_match (m : str) : Prop :=
  (∃ inner, m = lit "**" ++ inner ++ lit "**" ∧ bold_inner inner)
  ∨ (∃ inner, m = lit "*" ++ inner ++ lit "*" ∧ italic_inner inner).

Fixpoint spans_from (text : str) (cur : nat) (ms : list (nat * nat))
  : Prop :=
  match ms with
  | [] => True
  | (a, b) :: ms' =>
      cur ≤ a ∧ a < b ≤ length text ∧
      span_match (Py.slice a b text) ∧
      spans_from text b ms'
  end.

(** The run of a stretch of text outside the spans, if it is not empty. *)
Definition plain (s : str) : list run :=
  if bool_decide (s = []) then [] else [(s, false, false)].

(** What a run of the tokenizer looks like, by its style. *)
Definition run_shape (r : run) : Prop :=
  match run_bold r, run_italic r with
  | false, false => run_text r ≠ []
  | true, false => bold_inner (run_text r)
  | false, true => run_text r ≠ [] ∧ italic_inner (run_text r)
  | true, true => False
  end.

(** The blocks of a line converted on its own, as a file of one line. *)
Definition line_blocks (raw : str) : list block :=
  match loop_body [raw] 0 raw [] with
  | Next _ d | Raised d _ => d
  end.

(** An iteration of the loop with its index moved by [n] lines. *)
Definition shifted (n : nat) (sr : step_result) : step_result :=
  match sr with
  | Next i d => Next (n + i) d
  | Raised d e => Raised d e
  end.

(** A table has at least one row, and all its rows have one length. *)
Definition rectangular (grid : list (list cell)) : Prop :=
  grid ≠ [] ∧ ∃ cols, Forall (λ row, length row = cols) grid.

(** [open] and [readlines] succeed on the file. *)
Definition readable (fs : filesystem) (md_file : str) : bool :=
  match fs md_file with
  | Ok _ => true
  | Raise _ => false
  end.

(** A line as its author wrote the markup: stretches of text without
    asterisks, and spans [**inner**] and [*inner*]. *)
Inductive piece : Type :=
| Plain (s : str)
| Strong (inner : str)
| Emph (inner : str).

Definition piece_source (p : piece) : str :=
  match p with
  | Plain s => s
  | Strong inner => [ch_star; ch_star] ++ inner ++ [ch_star; ch_star]
  | Emph inner => [ch_star] ++ inner ++ [ch_star]
  end.

Definition markup (ps : list piece) : str :=
  concat (piece_source <$> ps).

(** The asterisks of the line are the delimiters of its spans, no span
    runs over a newline, and [*inner*] has an inner text. *)
Definition well_marked (p : piece) : Prop :=
  match p with
  | Plain s => ch_star ∉ s
  | Strong inner => (ch_star ∉ inner) ∧ (ch_newline ∉ inner)
  | Emph inner => inner ≠ [] ∧ (ch_star ∉ inner) ∧ (ch_newline ∉ inner)
  end.

(** A text that python-docx stores whole: each of its characters is a
    character of XML. *)
Definition storable (text : str) : bool := forallb Docx.xml_char text.

Definition all_storable (texts : list str) : bool := forallb storable texts.

(** * Properties *)

(** ** Strings *)

Section strings.

Implicit Types (s p : str) (c : N).

Lemma startswith_prefix p s : Py.startswith p s = true ↔ p `prefix_of` s.
Proof.
  revert s. induction p as [|a p IH]; intros [|b s]; simpl.
  - split; [intros _; apply prefix_nil | done].
  - split; [intros _; apply prefix_nil | done].
  - split; [done | intros H; by apply prefix_nil_not in H].
  - rewrite andb_true_iff, bool_decide_eq_true, IH. split.
    + intros [-> H]. by apply prefix_cons.
    + intros H. split; [by eapply prefix_cons_inv_1 | by eapply prefix_cons_inv_2].
Qed.

Lemma endswith_suffix p s : Py.endswith p s = true ↔ p `suffix_of` s.
Proof.
  unfold Py.endswith. rewrite startswith_prefix. symmetry.
  apply suffix_prefix_reverse.
Qed.

Lemma contains_char_elem c s : Py.contains_char c s = true ↔ c ∈ s.
Proof. unfold Py.contains_char. apply bool_decide_eq_true. Qed.

Lemma without_stars_app s1 s2 :
  without_stars (s1 ++ s2) = without_stars s1 ++ without_stars s2.
Proof. apply filter_app. Qed.

Lemma without_stars_all_stars s :
  Forall (λ c, c = ch_star) s → without_stars s = [].
Proof.
  induction 1 as [|c s -> _ IH]; [done|].
  unfold without_stars in *. by rewrite filter_cons_False by auto.
Qed.

Lemma without_stars_id s : ch_star ∉ s → without_stars s = s.
Proof.
  induction s as [|c s IH]; [done|]. intros Hs.
  apply not_elem_of_cons in Hs as [Hc Hs]. unfold without_stars in *.
  rewrite filter_cons_True by auto. by rewrite IH.
Qed.

Lemma without_stars_drop n s :
  Forall (λ c, c = ch_star) (take n s) →
  without_stars (drop n s) = without_stars s.
Proof.
  intros H. rewrite <- (take_drop n s) at 2.
  rewrite without_stars_app, (without_stars_all_stars (take n s)) by done.
  done.
Qed.

Lemma without_stars_take n s :
  Forall (λ c, c = ch_star) (drop n s) →
  without_stars (take n s) = without_stars s.
Proof.
  intros H. rewrite <- (take_drop n s) at 2.
  rewrite without_stars_app, (without_stars_all_stars (drop n s)) by done.
  by rewrite app_nil_r.
Qed.

(** [m[lo:-k]] only loses asterisks when the first [lo] and the last
    [k] characters of [m] are asterisks, however short [m] is. *)
Lemma without_stars_slice_neg lo k s :
  Forall (λ c, c = ch_star) (take lo s) →
  Forall (λ c, c = ch_star) (drop (length s - k) s) →
  without_stars (Py.slice_neg lo k s) = without_stars s.
Proof.
  intros Hlo Hk. unfold Py.slice_neg, Py.slice.
  rewrite without_stars_take; [by apply without_stars_drop|].
  rewrite drop_drop.
  destruct (decide (lo ≤ length s - k)) as [Hle|Hgt].
  - by replace (lo + (length s - k - lo)) with (length s - k) by lia.
  - replace (lo + (length s - k - lo))
      with ((length s - k) + (lo - (length s - k))) by lia.
    rewrite <- drop_drop. by apply Forall_drop.
Qed.

Lemma prefix_take_stars p s :
  Forall (λ c, c = ch_star) p → p `prefix_of` s →
  Forall (λ c, c = ch_star) (take (length p) s).
Proof. intros Hp [k ->]. by rewrite take_app_length. Qed.

Lemma suffix_drop_stars p s :
  Forall (λ c, c = ch_star) p → p `suffix_of` s →
  Forall (λ c, c = ch_star) (drop (length s - length p) s).
Proof.
  intros Hp [k ->]. rewrite length_app.
  replace (length k + length p - length p) with (length k) by lia.
  by rewrite drop_app_length.
Qed.

End strings.

(** ** The inline tokenizer *)

Section tokenizer.

Implicit Types (s text : str) (ms : list (nat * nat)).

Lemma lit_star : lit "*" = [ch_star].
Proof. reflexivity. Qed.

Lemma lit_star2 : lit "**" = [ch_star; ch_star].
Proof. reflexivity. Qed.

Lemma lazy_to_star_Some s k :
  Re.lazy_to_star s = Some k → s !! k = Some ch_star.
Proof.
  revert k. induction s as [|c s IH]; intros k; simpl; [done|].
  case_bool_decide as Hc; [intros [= <-]; by subst|].
  case_bool_decide; [done|].
  destruct (Re.lazy_to_star s) as [k'|]; simpl; [|done].
  intros [= <-]. by apply IH.
Qed.

Lemma lazy_to_star2_Some s k :
  Re.lazy_to_star2 s = Some k →
  s !! k = Some ch_star ∧ s !! S k = Some ch_star.
Proof.
  revert k. induction s as [|c s IH]; intros k; [done|].
  cbn [Re.lazy_to_star2].
  destruct (Py.startswith [ch_star; ch_star] (c :: s)) eqn:Hst.
  - intros [= <-]. apply startswith_prefix in Hst as [r Hr].
    simplify_eq/=. done.
  - case_bool_decide; [done|].
    destruct (Re.lazy_to_star2 s) as [k'|]; simpl; [|done].
    intros [= <-]. by apply IH.
Qed.

(** Laziness: the closing delimiter found is the first one, and [.]
    never steps over a newline on the way to it. *)
Lemma lazy_to_star_first s k j c :
  Re.lazy_to_star s = Some k → j < k → s !! j = Some c →
  c ≠ ch_star ∧ c ≠ ch_newline.
Proof.
  revert k j. induction s as [|d s IH]; intros k j; simpl; [done|].
  case_bool_decide as Hd; [intros [= <-]; lia|].
  case_bool_decide as Hn; [done|].
  destruct (Re.lazy_to_star s) as [k'|]; simpl; [|done].
  intros [= <-] Hj. destruct j as [|j]; simpl.
  - by intros [= <-].
  - apply (IH k'); [done|lia].
Qed.

Lemma lazy_to_star2_first s k j c :
  Re.lazy_to_star2 s = Some k → j < k → s !! j = Some c →
  c ≠ ch_newline ∧ ¬ [ch_star; ch_star] `prefix_of` drop j s.
Proof.
  revert k j. induction s as [|d s IH]; intros k j; [done|].
  cbn [Re.lazy_to_star2].
  destruct (Py.startswith [ch_star; ch_star] (d :: s)) eqn:Hst;
    [intros [= <-]; lia|].
  case_bool_decide as Hn; [done|].
  destruct (Re.lazy_to_star2 s) as [k'|]; simpl; [|done].
  intros [= <-] Hj. destruct j as [|j]; simpl.
  - intros [= <-]. split; [done|]. intros Hp%startswith_prefix. congruence.
  - apply (IH k'); [done|lia].
Qed.

Lemma lazy_to_star_None s : ch_star ∉ s → Re.lazy_to_star s = None.
Proof.
  intros Hs. destruct (Re.lazy_to_star s) as [k|] eqn:Hk; [|done].
  apply lazy_to_star_Some in Hk. destruct Hs. by eapply list_elem_of_lookup_2.
Qed.

(** A match is at least two characters long, lies inside the string,
    and begins and ends with an asterisk. *)
Lemma match_here_Some s n :
  Re.match_here s = Some n →
  2 ≤ n ≤ length s ∧
  [ch_star] `prefix_of` take n s ∧ [ch_star] `suffix_of` take n s.
Proof.
  unfold Re.match_here. intros H.
  assert (∀ t k, t !! k = Some ch_star →
            [ch_star] `suffix_of` take (S k) t) as Hlast.
  { intros t k Hk. exists (take k t).
    by rewrite (take_S_r _ _ _ Hk). }
  destruct (Py.startswith [ch_star; ch_star] s) eqn:H2.
  - apply startswith_prefix in H2 as [r ->]. simpl in H.
    rewrite drop_0 in H.
    destruct (Re.lazy_to_star2 r) as [k|] eqn:Hk; simpl in H.
    + injection H as <-. apply lazy_to_star2_Some in Hk as [_ Hk].
      pose proof (lookup_lt_Some _ _ _ Hk) as Hlt. simpl. split; [lia|].
      replace (k + 4) with (S (S (S (S k)))) by lia. split.
      * by eexists.
      * apply (Hlast (ch_star :: ch_star :: r) (S (S (S k)))). done.
    + injection H as <-. simpl. split; [lia|]. split.
      * by eexists.
      * by exists [ch_star].
  - destruct (Py.startswith [ch_star] s) eqn:H1; [|done].
    apply startswith_prefix in H1 as [r ->]. simpl in H.
    rewrite drop_0 in H.
    destruct (Re.lazy_to_star r) as [k|] eqn:Hk; simpl in H; [|done].
    injection H as <-. apply lazy_to_star_Some in Hk.
    pose proof (lookup_lt_Some _ _ _ Hk) as Hlt. simpl. split; [lia|].
    replace (k + 2) with (S (S k)) by lia. split.
    + by eexists.
    + apply (Hlast (ch_star :: r) (S k)). done.
Qed.

Lemma match_here_None s : ch_star ∉ s → Re.match_here s = None.
Proof.
  intros Hs. destruct (Re.match_here s) as [n|] eqn:Hn; [|done].
  apply match_here_Some in Hn as ([Hn Hn'] & [r Hr] & _).
  destruct s as [|c s]; [simpl in *; lia|].
  destruct n; [lia|]. simplify_eq/=. destruct Hs. left.
Qed.

Lemma finditer_from_no_star s pos :
  ch_star ∉ s → Re.finditer_from 0 pos s = [].
Proof.
  revert pos. induction s as [|c s IH]; intros pos Hs; [done|].
  cbn [Re.finditer_from]. rewrite match_here_None by done.
  apply IH. by apply not_elem_of_cons in Hs as [_ ?].
Qed.

Lemma matches_from_le text cur cur' ms :
  cur ≤ cur' → matches_from text cur' ms → matches_from text cur ms.
Proof. destruct ms as [|[a b] ms]; simpl; [done|]. intros ? (?&?); split; [lia|done]. Qed.

Lemma finditer_from_matches pre s skip :
  skip ≤ length s →
  matches_from (pre ++ s) (length pre + skip)
    (Re.finditer_from skip (length pre) s).
Proof.
  revert pre skip. induction s as [|c s IH]; intros pre skip Hskip; [done|].
  cbn [Re.finditer_from].
  assert (∀ k, k ≤ length s →
            matches_from (pre ++ c :: s) (length pre + S k)
              (Re.finditer_from k (S (length pre)) s)) as IH'.
  { intros k Hk. specialize (IH (pre ++ [c]) k Hk).
    rewrite <- app_assoc, length_app in IH. simpl in IH.
    by replace (length pre + 1) with (S (length pre)) in IH by lia;
      replace (S (length pre) + k) with (length pre + S k) in IH by lia. }
  destruct skip as [|k].
  - destruct (Re.match_here (c :: s)) as [n|] eqn:Hn.
    + apply match_here_Some in Hn as (Hn & Hp & Hs). simpl in Hn.
      assert (Py.slice (length pre) (length pre + n) (pre ++ c :: s)
              = take n (c :: s)) as Hsl.
      { unfold Py.slice. rewrite drop_app_length. f_equal. lia. }
      cbn [matches_from]. rewrite Hsl, length_app. simpl.
      split_and!; [lia|lia|lia|done|done|].
      replace (length pre + n) with (length pre + S (n - 1)) by lia.
      apply IH'. lia.
    + eapply matches_from_le; [|apply (IH' 0); lia]. lia.
  - apply IH'. simpl in Hskip. lia.
Qed.

Lemma finditer_matches text : matches_from text 0 (Re.finditer text).
Proof. apply (finditer_from_matches [] text 0). lia. Qed.

(** The run emitted for a match keeps everything but asterisks. *)
Lemma inline_step_matched text parts cur a b :
  [ch_star] `prefix_of` Py.slice a b text →
  [ch_star] `suffix_of` Py.slice a b text →
  ∃ t bold italic,
    inline_step text (parts, cur) (a, b)
    = ((if bool_decide (cur < a)
        then parts ++ [(Py.slice cur a text, false, false)]
        else parts) ++ [(t, bold, italic)], b)
    ∧ without_stars t = without_stars (Py.slice a b text).
Proof.
  intros Hp Hs. unfold inline_step.
  set (parts' := if bool_decide (cur < a) then _ else parts).
  set (m := Py.slice a b text) in *.
  destruct (Py.startswith (lit "**") m && Py.endswith (lit "**") m) eqn:H2.
  - apply andb_true_iff in H2 as [Hp2 Hs2].
    apply startswith_prefix in Hp2. apply endswith_suffix in Hs2.
    eexists _, _, _. split; [done|]. rewrite lit_star2 in *.
    apply without_stars_slice_neg.
    + by apply (prefix_take_stars [ch_star; ch_star]); [repeat constructor|].
    + by apply (suffix_drop_stars [ch_star; ch_star]); [repeat constructor|].
  - apply startswith_prefix in Hp as Hp'. apply endswith_suffix in Hs as Hs'.
    rewrite lit_star, Hp', Hs'. simpl.
    eexists _, _, _. split; [done|].
    apply without_stars_slice_neg.
    + by apply (prefix_take_stars [ch_star]); [repeat constructor|].
    + by apply (suffix_drop_stars [ch_star]); [repeat constructor|].
Qed.

Lemma slice_take_snoc {A} (l : list A) cur a :
  cur ≤ a → take a l = take cur l ++ Py.slice cur a l.
Proof.
  intros H. unfold Py.slice. rewrite take_take_drop.
  f_equal. lia.
Qed.

(** The loop invariant: the runs so far spell [text[:current_pos]], up
    to asterisks. *)
Lemma inline_loop_invariant text ms parts cur :
  matches_from text cur ms →
  without_stars (runs_text parts) = without_stars (take cur text) →
  ∀ parts' cur', foldl (inline_step text) (parts, cur) ms = (parts', cur') →
    cur ≤ cur' ∧
    without_stars (runs_text parts') = without_stars (take cur' text).
Proof.
  revert parts cur. induction ms as [|[a b] ms IH]; intros parts cur Hms Hinv.
  - simpl. intros ?? [= <- <-]. done.
  - destruct Hms as (Hcur & Hab & Hp & Hs & Hms). intros parts' cur' Hfold.
    cbn [foldl] in Hfold.
    destruct (inline_step_matched text parts cur a b Hp Hs)
      as (t & bo & it & Hstep & Ht).
    rewrite Hstep in Hfold. apply IH in Hfold as [Hle Hfold]; [| done |].
    + split; [lia|done].
    + unfold runs_text in *. rewrite fmap_app, concat_app, without_stars_app.
      simpl. change (run_text (t, bo, it)) with t. rewrite app_nil_r, Ht.
      rewrite (slice_take_snoc text a b) by lia.
      rewrite (without_stars_app (take a text)). f_equal.
      case_bool_decide.
      * rewrite fmap_app, concat_app, without_stars_app. simpl.
        change (run_text (Py.slice cur a text, false, false))
          with (Py.slice cur a text).
        rewrite app_nil_r, Hinv, <- without_stars_app.
        by rewrite <- slice_take_snoc by lia.
      * by replace a with cur by lia.
Qed.

End tokenizer.

(** C7. A line without any asterisk is tokenized into exactly one run,
    neither bold nor italic, whose text is the line itself. *)
Theorem parse_inline_markdown_plain (text : str) :
  ch_star ∉ text →
  parse_inline_markdown text = [(text, false, false)].
Proof.
  intros Hs. unfold parse_inline_markdown, Re.finditer.
  rewrite finditer_from_no_star by done. simpl.
  by case_bool_decide.
Qed.

Lemma parse_inline_markdown_plain_witness :
  parse_inline_markdown (lit "Some plain | text - no markers")
  = [(lit "Some plain | text - no markers", false, false)].
Proof.
  apply (parse_inline_markdown_plain (lit "Some plain | text - no markers")).
  by apply (bool_decide_unpack _).
Defined.

(** The tokenizer never drops or adds anything but asterisks. *)
Lemma parse_inline_markdown_without_stars (text : str) :
  without_stars (runs_text (parse_inline_markdown text))
  = without_stars text.
Proof.
  unfold parse_inline_markdown.
  destruct (foldl (inline_step text) ([], 0) (Re.finditer text))
    as [parts cur] eqn:Hfold.
  apply inline_loop_invariant in Hfold as [_ Hinv];
    [|apply finditer_matches|done].
  assert (without_stars
            (runs_text
               (if bool_decide (cur < length text)
                then parts ++ [(Py.slice_from cur text, false, false)]
                else parts)) = without_stars text) as Hall.
  { case_bool_decide as Hlt.
    - unfold runs_text in *. rewrite fmap_app, concat_app, without_stars_app.
      simpl. change (run_text (Py.slice_from cur text, false, false))
        with (drop cur text).
      rewrite app_nil_r, Hinv, <- without_stars_app. by rewrite take_drop.
    - rewrite Hinv. by rewrite take_ge by lia. }
  destruct (if bool_decide (cur < length text) then _ else parts); [|done].
  unfold runs_text. simpl. by rewrite app_nil_r.
Qed.

(** ** Storing text *)

Section storing.

Implicit Types (text written bfr : str).

Lemma append_text_storable text written bfr :
  storable bfr → storable text →
  Docx.append_text text written bfr = (written ++ bfr ++ text, Ok ()).
Proof.
  unfold storable. revert written bfr.
  induction text as [|c text IH]; intros written bfr Hb Ht; simpl.
  - unfold Docx.flush. rewrite (Is_true_eq_true _ Hb). by rewrite app_nil_r.
  - simpl in Ht. apply andb_prop_elim in Ht as [Hc Ht].
    destruct (Docx.is_break c).
    + unfold Docx.flush. rewrite (Is_true_eq_true _ Hb).
      rewrite (IH _ [] I Ht). simpl. by rewrite <- !app_assoc.
    + rewrite IH; [by rewrite <- app_assoc| |done].
      rewrite forallb_app. simpl. rewrite (Is_true_eq_true _ Hb).
      by rewrite (Is_true_eq_true _ Hc).
Qed.

Lemma set_text_storable text :
  storable text → Docx.set_text text = (text, Ok ()).
Proof. intros H. unfold Docx.set_text. by rewrite append_text_storable. Qed.

Lemma append_text_result text written bfr :
  (∃ w, Docx.append_text text written bfr = (w, Ok ()))
  ∨ (∃ w, Docx.append_text text written bfr = (w, Raise ValueError)).
Proof.
  revert written bfr. induction text as [|c text IH]; intros written bfr;
    simpl; unfold Docx.flush.
  - destruct (forallb _ bfr); [left|right]; by eexists.
  - destruct (Docx.is_break c); [|apply IH].
    destruct (forallb _ bfr); [apply IH|right; by eexists].
Qed.

Lemma append_text_not_storable text written bfr :
  ¬ (storable bfr ∧ storable text) →
  ∃ w, Docx.append_text text written bfr = (w, Raise ValueError).
Proof.
  unfold storable. revert written bfr.
  induction text as [|c text IH]; intros written bfr Hno;
    cbn [Docx.append_text]; unfold Docx.flush.
  - destruct (forallb Docx.xml_char bfr) eqn:Hb; [|by eexists].
    by destruct Hno.
  - destruct (Docx.is_break c) eqn:Hc.
    + destruct (forallb Docx.xml_char bfr) eqn:Hb; [|by eexists].
      apply IH. intros [_ Ht]. apply Hno. split; [done|].
      simpl. apply andb_prop_intro. split; [|done].
      unfold Docx.is_break in Hc. unfold Docx.xml_char.
      repeat match goal with
             | |- context [(?a =? ?b)%N] => destruct (N.eqb_spec a b)
             end; try done; by subst.
    + apply IH. intros [Hb Ht]. apply Hno. rewrite forallb_app in Hb.
      simpl in Hb. apply andb_prop_elim in Hb as [Hb Hc'].
      split; [done|]. simpl. apply andb_prop_intro. split; [|done].
      by destruct (Docx.xml_char c).
Qed.

Lemma set_text_not_storable text :
  ¬ storable text → ∃ w, Docx.set_text text = (w, Raise ValueError).
Proof. intros H. apply append_text_not_storable. by intros [_ ?]. Qed.

Lemma set_text_result text :
  (∃ w, Docx.set_text text = (w, Ok ()))
  ∨ (∃ w, Docx.set_text text = (w, Raise ValueError)).
Proof. apply append_text_result. Qed.

End storing.

(** ** The table parser *)

Section table.

Implicit Types (table : list (list cell)) (row : list cell)
  (row_data : list str) (rows : list (list str)).

(** Writing [row_data] over the cells [old] of row [i]. *)
Lemma fill_row_fits table i pre old post row_data :
  table !! i = Some (pre ++ old ++ post) →
  length old = length row_data →
  all_storable row_data →
  fill_row table i (length pre) row_data
  = (<[i := pre ++ (written_cell i <$> row_data) ++ post]> table, Ok ()).
Proof.
  revert table pre old.
  induction row_data as [|c row_data IH]; intros table pre old Hi Hlen Hst.
  - destruct old; [|done]. simpl. by rewrite list_insert_id.
  - destruct old as [|o old]; [done|]. cbn [fill_row]. rewrite Hi.
    apply andb_prop_elim in Hst as [Hc Hst].
    change ((o :: old) ++ post) with (o :: (old ++ post)).
    rewrite list_lookup_middle by done.
    rewrite (set_text_storable c Hc). cbn zeta.
    replace (<[length pre := written_cell i c]> (pre ++ o :: (old ++ post)))
      with ((pre ++ [written_cell i c]) ++ old ++ post).
    2:{ rewrite <- (Nat.add_0_r (length pre)), insert_app_r.
        by rewrite <- app_assoc. }
    replace (S (length pre)) with (length (pre ++ [written_cell i c]))
      by (rewrite length_app; simpl; lia).
    erewrite IH.
    + rewrite list_insert_insert_eq. by rewrite <- app_assoc.
    + apply list_lookup_insert_eq. by eapply lookup_lt_Some.
    + simpl in Hlen. lia.
    + done.
Qed.

(** Writing more cells than the row has left: the cells that exist are
    written, then [row.cells[j]] raises. *)
Lemma fill_row_overflow table i pre old row_data :
  table !! i = Some (pre ++ old) →
  length old < length row_data →
  all_storable (take (length old) row_data) →
  fill_row table i (length pre) row_data
  = (<[i := pre ++ (written_cell i <$> take (length old) row_data)]> table,
     Raise IndexError).
Proof.
  revert table pre old.
  induction row_data as [|c row_data IH]; intros table pre old Hi Hlen Hst.
  - simpl in Hlen. lia.
  - cbn [fill_row]. rewrite Hi. destruct old as [|o old].
    + rewrite lookup_ge_None_2 by (rewrite length_app; simpl; lia).
      simpl. by rewrite list_insert_id.
    + rewrite list_lookup_middle by done.
      apply andb_prop_elim in Hst as [Hc Hst].
      rewrite (set_text_storable c Hc). cbn zeta.
      replace (<[length pre := written_cell i c]> (pre ++ o :: old))
        with ((pre ++ [written_cell i c]) ++ old).
      2:{ rewrite <- (Nat.add_0_r (length pre)), insert_app_r.
          by rewrite <- app_assoc. }
      replace (S (length pre)) with (length (pre ++ [written_cell i c]))
        by (rewrite length_app; simpl; lia).
      erewrite IH.
      * rewrite list_insert_insert_eq. simpl. by rewrite <- app_assoc.
      * apply list_lookup_insert_eq. by eapply lookup_lt_Some.
      * simpl in Hlen. lia.
      * done.
Qed.

(** One row of a fresh table, when the row fits and when it does not. *)
Lemma fill_row_fresh done_rows cols n row_data :
  length row_data ≤ cols →
  all_storable row_data →
  fill_row (done_rows ++ replicate (S n) (replicate cols empty_cell))
    (length done_rows) 0 row_data
  = ((done_rows ++ [filled_row cols (length done_rows) row_data])
     ++ replicate n (replicate cols empty_cell), Ok ()).
Proof.
  intros Hlen Hst.
  rewrite (fill_row_fits _ _ [] (replicate (length row_data) empty_cell)
             (replicate (cols - length row_data) empty_cell)).
  - simpl. rewrite <- (Nat.add_0_r (length done_rows)) at 1.
    rewrite insert_app_r. simpl. by rewrite <- app_assoc.
  - simpl. rewrite list_lookup_middle by done.
    rewrite <- replicate_add. do 2 f_equal. lia.
  - by rewrite length_replicate.
  - done.
Qed.

Lemma fill_row_fresh_overflow done_rows cols n row_data :
  cols < length row_data →
  all_storable (take cols row_data) →
  fill_row (done_rows ++ replicate (S n) (replicate cols empty_cell))
    (length done_rows) 0 row_data
  = (done_rows
     ++ (written_cell (length done_rows) <$> take cols row_data)
     :: replicate n (replicate cols empty_cell), Raise IndexError).
Proof.
  intros Hlen Hst.
  rewrite (fill_row_overflow _ _ [] (replicate cols empty_cell)).
  - simpl. rewrite <- (Nat.add_0_r (length done_rows)) at 1.
    rewrite insert_app_r. simpl. by rewrite length_replicate.
  - simpl. by rewrite list_lookup_middle.
  - by rewrite length_replicate.
  - by rewrite length_replicate.
Qed.

(** The fill of a fresh table succeeds when every row fits. *)
Lemma fill_table_fits done_rows cols rows :
  Forall (λ row_data, length row_data ≤ cols) rows →
  Forall (λ row_data, all_storable row_data) rows →
  fill_table
    (done_rows ++ replicate (length rows) (replicate cols empty_cell))
    (length done_rows) rows
  = (done_rows
     ++ imap (λ k, filled_row cols (length done_rows + k)) rows, Ok ()).
Proof.
  intros Hrows. revert done_rows.
  induction Hrows as [|row_data rows Hlen _ IH]; intros done_rows Hst.
  - done.
  - apply Forall_cons in Hst as [Hst Hst'].
    cbn [fill_table length]. rewrite fill_row_fresh by done.
    replace (S (length done_rows))
      with (length (done_rows
                    ++ [filled_row cols (length done_rows) row_data]))
      by (rewrite length_app; simpl; lia).
    rewrite IH by done. rewrite <- app_assoc. simpl. rewrite Nat.add_0_r.
    do 3 f_equal. apply imap_ext. intros k x _. simpl.
    rewrite length_app. simpl. f_equal. lia.
Qed.

(** The fill stops at the first row that is longer than the table is
    wide: the rows before it are filled, the row itself as far as the
    table goes, and the rows behind it stay empty. *)
Lemma fill_table_overflow done_rows cols good bad rest :
  Forall (λ row_data, length row_data ≤ cols) good →
  cols < length bad →
  Forall (λ row_data, all_storable row_data) good →
  all_storable (take cols bad) →
  fill_table
    (done_rows
     ++ replicate (length (good ++ bad :: rest)) (replicate cols empty_cell))
    (length done_rows) (good ++ bad :: rest)
  = (done_rows
     ++ imap (λ k, filled_row cols (length done_rows + k)) good
     ++ (written_cell (length done_rows + length good) <$> take cols bad)
     :: replicate (length rest) (replicate cols empty_cell),
     Raise IndexError).
Proof.
  intros Hgood Hbad Hst Hst'. revert done_rows.
  induction Hgood as [|row_data good Hlen _ IH]; intros done_rows.
  - cbn [app fill_table length imap].
    rewrite fill_row_fresh_overflow by done. by rewrite Nat.add_0_r.
  - apply Forall_cons in Hst as [Hst1 Hst].
    cbn [app fill_table length]. rewrite fill_row_fresh by done.
    replace (S (length done_rows))
      with (length (done_rows
                    ++ [filled_row cols (length done_rows) row_data]))
      by (rewrite length_app; simpl; lia).
    rewrite IH by done. rewrite <- app_assoc. simpl. rewrite Nat.add_0_r.
    rewrite length_app. simpl. do 2 f_equal.
    replace (length done_rows + 1 + length good)
      with (length done_rows + S (length good)) by lia.
    erewrite imap_ext; [done|]. intros k x _. simpl. f_equal. lia.
Qed.

Lemma filled_row_length cols i row_data :
  length row_data ≤ cols → length (filled_row cols i row_data) = cols.
Proof.
  intros H. unfold filled_row.
  rewrite length_app, length_fmap, length_replicate. lia.
Qed.

Lemma filled_row_lookup cols i row_data j :
  length row_data ≤ cols → j < cols →
  cell_text <$> filled_row cols i row_data !! j
  = Some (default [] (row_data !! j)).
Proof.
  intros Hlen Hj. unfold filled_row.
  destruct (row_data !! j) as [c|] eqn:Hc.
  - rewrite lookup_app_l
      by (rewrite length_fmap; by eapply lookup_lt_Some).
    by rewrite list_lookup_fmap, Hc.
  - apply lookup_ge_None in Hc.
    rewrite lookup_app_r by (by rewrite length_fmap).
    rewrite lookup_replicate_2; [done|]. rewrite length_fmap. lia.
Qed.

(** The collecting loop: the index moves past every line it looks at,
    and the lines kept are added behind those already there. *)
Lemma collect_table_lines_acc (rest : list str) idx (acc : list str) :
  collect_table_lines rest idx acc
  = ((collect_table_lines rest idx []).1,
     acc ++ (collect_table_lines rest idx []).2).
Proof.
  revert idx acc. induction rest as [|l rest IH]; intros idx acc; simpl.
  - by rewrite app_nil_r.
  - destruct (Py.contains_char ch_pipe l); [|by rewrite app_nil_r].
    destruct (negb _); simpl.
    + rewrite (IH _ (acc ++ [l])), (IH _ [l]). simpl.
      by rewrite <- app_assoc.
    + apply IH.
Qed.

Lemma collect_table_lines_idx (rest : list str) idx (acc : list str) :
  idx ≤ (collect_table_lines rest idx acc).1 ≤ idx + length rest.
Proof.
  revert idx acc. induction rest as [|l rest IH]; intros idx acc; simpl.
  - lia.
  - destruct (Py.contains_char ch_pipe l); simpl; [|lia].
    match goal with
    | |- context [collect_table_lines rest (S idx) ?a] =>
        specialize (IH (S idx) a)
    end. lia.
Qed.

Lemma collect_table_lines_first (l : str) (rest : list str) idx
    (acc : list str) :
  Py.contains_char ch_pipe l = true →
  idx < (collect_table_lines (l :: rest) idx acc).1.
Proof.
  intros Hl. simpl. rewrite Hl.
  match goal with
  | |- context [collect_table_lines rest (S idx) ?a] =>
      pose proof (collect_table_lines_idx rest (S idx) a)
  end. lia.
Qed.

End table.

Section table_blocks.

Implicit Types (doc : document) (lines : list str).

Lemma rstrip_prefix (s : str) : Py.rstrip s `prefix_of` s.
Proof.
  induction s as [|c s IH]; [done|]. simpl.
  destruct (Py.rstrip s) as [|d r].
  - destruct (Py.isspace c); [apply prefix_nil|].
    apply prefix_cons, prefix_nil.
  - by apply prefix_cons.
Qed.

Lemma fill_row_length (table : list (list cell)) i j row_data :
  length (fill_row table i j row_data).1 = length table.
Proof.
  revert table j. induction row_data as [|c row_data IH]; intros table j.
  - done.
  - simpl. destruct (table !! i) as [row|]; [|done].
    destruct (row !! j); [|done].
    destruct (Docx.set_text c) as [w [[]|e]]; simpl.
    + by rewrite IH, length_insert.
    + by rewrite length_insert.
Qed.

Lemma fill_table_length (table : list (list cell)) i rows :
  length (fill_table table i rows).1 = length table.
Proof.
  revert table i. induction rows as [|row_data rows IH]; intros table i.
  - done.
  - simpl. pose proof (fill_row_length table i 0 row_data) as Hrow.
    destruct (fill_row table i 0 row_data) as [table' [[]|e]]; simpl in *.
    + by rewrite IH.
    + done.
Qed.

(** Whatever the texts are, the fill keeps the shape of the table and
    touches row [i] only at the positions [j], [j + 1], ... of the
    texts. *)
Lemma fill_row_untouched (table : list (list cell)) i j row_data :
  ∀ r row, table !! r = Some row →
    ∃ row', (fill_row table i j row_data).1 !! r = Some row'
      ∧ length row' = length row
      ∧ ∀ k, (r = i → k < j ∨ j + length row_data ≤ k) →
          row' !! k = row !! k.
Proof.
  revert table j. induction row_data as [|c row_data IH]; intros table j.
  - intros r row Hr. exists row. by simpl.
  - intros r row Hr. cbn [fill_row].
    destruct (table !! i) as [row_i|] eqn:Hi; [|by exists row].
    destruct (row_i !! j) as [old|] eqn:Hj; [|by exists row].
    assert (∀ c',
      ∃ row1, <[i := <[j := c']> row_i]> table !! r = Some row1
        ∧ length row1 = length row
        ∧ ∀ k, (r = i → k ≠ j) → row1 !! k = row !! k) as Hins.
    { intros c'. destruct (decide (r = i)) as [->|Hne].
      - assert (row = row_i) as -> by congruence.
        exists (<[j := c']> row_i). split.
        + apply list_lookup_insert_eq. by eapply lookup_lt_Some.
        + split; [by rewrite length_insert|]. intros k Hk.
          apply list_lookup_insert_ne. by intros ->; apply Hk.
      - exists row. by rewrite list_lookup_insert_ne. }
    destruct (Docx.set_text c) as [w [[]|e]]; cbn zeta.
    + destruct (Hins (written_cell i c)) as (row1 & Hr1 & Hlen1 & Hsame1).
      destruct (IH _ (S j) r row1 Hr1) as (row' & Hr' & Hlen' & Hsame').
      exists row'. split; [done|]. split; [congruence|]. intros k Hk.
      rewrite Hsame', Hsame1; [done| |].
      * intros Hri. specialize (Hk Hri). simpl in Hk. lia.
      * intros Hri. specialize (Hk Hri). simpl in Hk. lia.
    + destruct (Hins {| cell_text := w; cell_header := false |})
        as (row1 & Hr1 & Hlen1 & Hsame1).
      exists row1. split; [done|]. split; [done|]. intros k Hk.
      apply Hsame1. intros Hri. specialize (Hk Hri). simpl in Hk. lia.
Qed.

Lemma fill_table_untouched (table : list (list cell)) i rows :
  ∀ r row, table !! r = Some row →
    ∃ row', (fill_table table i rows).1 !! r = Some row'
      ∧ length row' = length row
      ∧ ∀ k, (∀ row_data, i ≤ r → rows !! (r - i) = Some row_data →
                length row_data ≤ k) →
          row' !! k = row !! k.
Proof.
  revert table i. induction rows as [|row_data rows IH]; intros table i.
  - intros r row Hr. exists row. by simpl.
  - intros r row Hr. cbn [fill_table].
    destruct (fill_row_untouched table i 0 row_data r row Hr)
      as (row1 & Hr1 & Hlen1 & Hsame1).
    assert (∀ k, (∀ rd, i ≤ r → (row_data :: rows) !! (r - i) = Some rd →
                    length rd ≤ k) → row1 !! k = row !! k) as Hsame.
    { intros k Hk. apply Hsame1. intros ->. right.
      apply (Hk row_data); [done|]. by rewrite Nat.sub_diag. }
    destruct (fill_row table i 0 row_data) as [table1 [[]|e]];
      simpl in Hr1; simpl.
    + destruct (IH table1 (S i) r row1 Hr1) as (row' & Hr' & Hlen' & Hsame').
      exists row'. split; [done|]. split; [congruence|]. intros k Hk.
      rewrite Hsame', Hsame; [done|done|].
      intros rd Hle Hrd. apply (Hk rd); [lia|].
      replace (r - i) with (S (r - S i)) by lia. done.
    + exists row1. by split_and!.
Qed.

(** When its texts are stored, the header row is written first and in
    full, and no later row touches it. *)
Lemma fill_table_header n (header : list str) (data : list (list str)) :
  all_storable header →
  (fill_table (new_table (S n) (length header)) 0 (header :: data)).1 !! 0
  = Some (written_cell 0 <$> header).
Proof.
  intros Hst. cbn [fill_table].
  pose proof (fill_row_fresh [] (length header) n header (le_n _) Hst)
    as Hrow.
  cbn [app length] in Hrow. unfold new_table. rewrite Hrow.
  destruct (fill_table_untouched
              (filled_row (length header) 0 header
               :: replicate n (replicate (length header) empty_cell))
              1 data 0 _ eq_refl) as (row' & Hrow' & Hlen & Hsame).
  rewrite Hrow'. f_equal.
  assert (row' = filled_row (length header) 0 header) as ->.
  { apply list_eq. intros k. apply Hsame. intros rd Hle. lia. }
  unfold filled_row. by rewrite Nat.sub_diag, app_nil_r.
Qed.

(** The header formatting is given to cells of row 0 only. *)
Lemma fill_row_header_first (table : list (list cell)) i j row_data :
  (∀ r row k c, table !! r = Some row → row !! k = Some c →
     cell_header c = true → r = 0) →
  ∀ r row k c, (fill_row table i j row_data).1 !! r = Some row →
    row !! k = Some c → cell_header c = true → r = 0.
Proof.
  revert table j. induction row_data as [|t row_data IH]; intros table j.
  - done.
  - intros Htable. cbn [fill_row].
    destruct (table !! i) as [row_i|] eqn:Hi; [|done].
    destruct (row_i !! j) as [old|] eqn:Hj; [|done].
    assert (∀ c', (cell_header c' = true → i = 0) →
      ∀ r row k c, <[i := <[j := c']> row_i]> table !! r = Some row →
        row !! k = Some c → cell_header c = true → r = 0) as Hins.
    { intros c' Hc' r row k c Hr Hk Hc.
      apply list_lookup_insert_Some in Hr as [(-> & <- & _)|[Hne Hr]].
      - apply list_lookup_insert_Some in Hk as [(-> & <- & _)|[_ Hk]].
        + by apply Hc'.
        + by eapply Htable.
      - by eapply Htable. }
    destruct (Docx.set_text t) as [w [[]|e]]; cbn zeta.
    + apply IH. apply Hins. simpl. by intros ?%bool_decide_eq_true.
    + apply Hins. done.
Qed.

Lemma fill_table_header_first (table : list (list cell)) i rows :
  (∀ r row k c, table !! r = Some row → row !! k = Some c →
     cell_header c = true → r = 0) →
  ∀ r row k c, (fill_table table i rows).1 !! r = Some row →
    row !! k = Some c → cell_header c = true → r = 0.
Proof.
  revert table i. induction rows as [|row_data rows IH]; intros table i.
  - done.
  - intros Htable. cbn [fill_table].
    pose proof (fill_row_header_first table i 0 row_data Htable) as Hrow.
    destruct (fill_row table i 0 row_data) as [table1 [[]|e]]; simpl in Hrow.
    + by apply IH.
    + done.
Qed.

(** [add_table_from_markdown] in terms of the rows it parsed. *)
Lemma add_table_from_markdown_rows doc lines start_idx header data :
  table_rows_at lines start_idx = header :: data →
  add_table_from_markdown doc lines start_idx
  = match fill_table (new_table (S (length data)) (length header)) 0
            (header :: data) with
    | (table, Ok _) =>
        (doc ++ [Table table; Paragraph []],
         Ok (table_end_at lines start_idx))
    | (table, Raise e) => (doc ++ [Table table], Raise e)
    end.
Proof.
  unfold table_rows_at, table_lines_at, table_end_at,
    add_table_from_markdown.
  destruct (collect_table_lines _ _ _) as [idx table_lines]. simpl.
  intros Hrows. destruct table_lines as [|l table_lines]; [done|].
  rewrite Hrows. simpl. done.
Qed.

Lemma add_table_from_markdown_empty doc lines start_idx :
  table_rows_at lines start_idx = [] →
  add_table_from_markdown doc lines start_idx
  = (doc, Ok (table_end_at lines start_idx)).
Proof.
  unfold table_rows_at, table_lines_at, table_end_at,
    add_table_from_markdown.
  destruct (collect_table_lines _ _ _) as [idx table_lines]. simpl.
  by destruct table_lines.
Qed.

(** The line at [start_idx] heads the kept lines when it has a pipe and
    is not a separator. *)
Lemma table_lines_at_first lines start_idx raw :
  lines !! start_idx = Some raw →
  Py.contains_char ch_pipe raw = true →
  Py.startswith (lit "|---") (Py.strip raw) = false →
  ∃ more, table_lines_at lines start_idx = raw :: more.
Proof.
  intros Hraw Hpipe Hsep. unfold table_lines_at.
  rewrite (drop_S _ _ _ Hraw). cbn [collect_table_lines].
  rewrite Hpipe, Hsep. simpl. rewrite collect_table_lines_acc. simpl.
  by eexists.
Qed.

Lemma table_start_pipe lines i raw :
  table_start lines i (Py.rstrip raw) = true →
  Py.contains_char ch_pipe raw = true.
Proof.
  unfold table_start. intros [Hpipe _]%andb_true_iff.
  apply contains_char_elem in Hpipe. apply contains_char_elem.
  destruct (rstrip_prefix raw) as [k Hk]. rewrite Hk.
  apply elem_of_app. by left.
Qed.

End table_blocks.

(** When every row fits the width given by the header, the table is
    filled row by row and the spacer follows. *)
Lemma add_table_from_markdown_fits (doc : document) (lines : list str)
    (start_idx : nat) (header : list str) (data : list (list str)) :
  table_rows_at lines start_idx = header :: data →
  Forall (λ row_data, length row_data ≤ length header) data →
  Forall (λ row_data, all_storable row_data) (header :: data) →
  add_table_from_markdown doc lines start_idx
  = (doc ++ [Table (imap (filled_row (length header)) (header :: data));
             Paragraph []],
     Ok (table_end_at lines start_idx)).
Proof.
  intros Hrows Hdata Hst.
  assert (Forall (λ row_data, length row_data ≤ length header)
            (header :: data)) as Hall by (by constructor).
  rewrite (add_table_from_markdown_rows _ _ _ _ _ Hrows).
  pose proof (fill_table_fits [] (length header) (header :: data) Hall Hst)
    as Hfill.
  cbn [app length Nat.add] in Hfill. unfold new_table. by rewrite Hfill.
Qed.

(** C10. When no data row has more cells than the header row, the table
    that the converter puts into the document has one row per parsed row,
    each of the header's number of columns, and a cell beyond the end of
    a short row is the empty cell of the new table.  When python-docx
    stores every text, the spacer paragraph follows, the parser returns
    the end of the block, and every cell within a row's count holds the
    row's text. *)
Theorem add_table_from_markdown_pads (doc : document) (lines : list str)
    (start_idx : nat) (header : list str) (data : list (list str)) :
  table_rows_at lines start_idx = header :: data →
  Forall (λ row_data, length row_data ≤ length header) data →
  ∃ grid tail r,
    add_table_from_markdown doc lines start_idx
    = (doc ++ Table grid :: tail, r)
    ∧ length grid = S (length data)
    ∧ (∀ k row_data, (header :: data) !! k = Some row_data →
         ∃ cells, grid !! k = Some cells
           ∧ length cells = length header
           ∧ ∀ j, length row_data ≤ j < length header →
               cells !! j = Some empty_cell)
    ∧ (Forall (λ row_data, all_storable row_data) (header :: data) →
       tail = [Paragraph []]
       ∧ r = Ok (table_end_at lines start_idx)
       ∧ ∀ k row_data cells j,
           (header :: data) !! k = Some row_data →
           grid !! k = Some cells → j < length header →
           cell_text <$> cells !! j = Some (default [] (row_data !! j))).
Proof.
  intros Hrows Hdata.
  assert (Forall (λ row_data, length row_data ≤ length header)
            (header :: data)) as Hall by (by constructor).
  pose proof (add_table_from_markdown_rows doc _ _ _ _ Hrows) as Hadd.
  pose proof (fill_table_length
                (new_table (S (length data)) (length header)) 0
                (header :: data)) as Hlen.
  pose proof (fill_table_untouched
                (new_table (S (length data)) (length header)) 0
                (header :: data)) as Hshape.
  pose proof (fill_table_fits [] (length header) (header :: data) Hall)
    as Hfits.
  cbn [app length Nat.add] in Hfits.
  change (replicate (S (length data)) (replicate (length header) empty_cell))
    with (new_table (S (length data)) (length header)) in Hfits.
  destruct (fill_table _ 0 (header :: data)) as [grid res].
  exists grid,
    (match res with Ok _ => [Paragraph []] | Raise _ => [] end),
    (match res with
     | Ok _ => Ok (table_end_at lines start_idx)
     | Raise e => Raise e
     end).
  split; [rewrite Hadd; by destruct res|].
  split; [simpl in Hlen; unfold new_table in Hlen;
          by rewrite length_replicate in Hlen|].
  split.
  - intros k row_data Hk.
    assert (new_table (S (length data)) (length header) !! k
            = Some (replicate (length header) empty_cell)) as Hnew.
    { apply lookup_replicate_2. apply lookup_lt_Some in Hk. simpl in Hk. lia. }
    destruct (Hshape k _ Hnew) as (cells & Hcells & Hlenc & Hsame).
    exists cells. split; [done|].
    split; [by rewrite Hlenc, length_replicate|]. intros j [Hj1 Hj2].
    rewrite Hsame; [by apply lookup_replicate_2|].
    intros rd _ Hrd. rewrite Nat.sub_0_r in Hrd. congruence.
  - intros Hst. specialize (Hfits Hst).
    assert (grid = imap (filled_row (length header)) (header :: data)
            ∧ res = Ok ()) as [-> ->].
    { split; [exact (f_equal fst Hfits) | exact (f_equal snd Hfits)]. }
    split; [done|]. split; [done|]. intros k row_data cells j Hk Hcells Hj.
    rewrite list_lookup_imap, Hk in Hcells. injection Hcells as <-.
    apply filled_row_lookup; [|done].
    eapply (Forall_lookup_1 _ _ _ _ Hall Hk).
Qed.

Lemma add_table_from_markdown_pads_witness :
  ∃ grid tail r,
    add_table_from_markdown []
      [line_of "| A | B |"; line_of "|---|---|"; line_of "| 1 |"] 0
    = ([] ++ Table grid :: tail, r)
    ∧ length grid = 2
    ∧ (∀ k row_data, [[lit "A"; lit "B"]; [lit "1"]] !! k = Some row_data →
         ∃ cells, grid !! k = Some cells
           ∧ length cells = 2
           ∧ ∀ j, length row_data ≤ j < 2 → cells !! j = Some empty_cell)
    ∧ (Forall (λ row_data, all_storable row_data)
         [[lit "A"; lit "B"]; [lit "1"]] →
       tail = [Paragraph []]
       ∧ r = Ok 3
       ∧ ∀ k row_data cells j,
           [[lit "A"; lit "B"]; [lit "1"]] !! k = Some row_data →
           grid !! k = Some cells → j < 2 →
           cell_text <$> cells !! j = Some (default [] (row_data !! j))).
Proof.
  apply (add_table_from_markdown_pads []
           [line_of "| A | B |"; line_of "|---|---|"; line_of "| 1 |"] 0
           [lit "A"; lit "B"] [[lit "1"]]).
  - reflexivity.
  - repeat constructor.
Defined.

(** C2, as stated, fails: a separator line followed by a separator line is
    recognized as the start of a table, both lines are skipped, and no
    table is produced. *)
Lemma table_of_separators_has_no_row :
  let lines := [line_of "|---|---|"; line_of "|---|---|"] in
  table_start lines 0 (Py.rstrip (line_of "|---|---|")) = true
  ∧ table_rows_at lines 0 = []
  ∧ add_table_from_markdown [] lines 0 = ([], Ok 2)
  ∧ process_lines [] lines = Some ([], Ok ()).
Proof. repeat split; reflexivity. Qed.

(** C2, amended. At a line that triggers table detection: when the line
    is not itself a separator line (its trimmed form does not start with
    [|---]), it is the first line the table parser keeps, the table put
    into the document has one row per kept line, so at least one, every
    row has as many cells as the triggering line has, and row 0 holds the
    cells of the triggering line whenever python-docx stores their
    texts.  When the line is itself a separator line it contributes no
    row: the parser does what it does from the next line on.  When the
    parser keeps no line, it adds nothing to the document. *)
Theorem add_table_from_markdown_first_row (doc : document)
    (lines : list str) (i : nat) (raw : str) :
  lines !! i = Some raw →
  table_start lines i (Py.rstrip raw) = true →
  (Py.startswith (lit "|---") (Py.strip raw) = false →
   ∃ more grid tail r,
     table_lines_at lines i = raw :: more
     ∧ add_table_from_markdown doc lines i = (doc ++ Table grid :: tail, r)
     ∧ length grid = S (length more)
     ∧ Forall (λ cells, length cells = length (parse_row raw)) grid
     ∧ (all_storable (parse_row raw) →
        grid !! 0 = Some (written_cell 0 <$> parse_row raw)))
  ∧ (Py.startswith (lit "|---") (Py.strip raw) = true →
     table_lines_at lines i = table_lines_at lines (S i)
     ∧ add_table_from_markdown doc lines i
       = add_table_from_markdown doc lines (S i))
  ∧ (table_lines_at lines i = [] →
     add_table_from_markdown doc lines i = (doc, Ok (table_end_at lines i))).
Proof.
  intros Hraw Hstart. split_and!.
  - intros Hsep.
    destruct (table_lines_at_first lines i raw Hraw
                (table_start_pipe _ _ _ Hstart) Hsep) as [more Hmore].
    exists more.
    assert (table_rows_at lines i = parse_row raw :: (parse_row <$> more))
      as Hrows by (unfold table_rows_at; by rewrite Hmore).
    rewrite (add_table_from_markdown_rows _ _ _ _ _ Hrows).
    pose proof (fill_table_length
                  (new_table (S (length (parse_row <$> more)))
                     (length (parse_row raw)))
                  0 (parse_row raw :: (parse_row <$> more))) as Hlen.
    pose proof (fill_table_untouched
                  (new_table (S (length (parse_row <$> more)))
                     (length (parse_row raw)))
                  0 (parse_row raw :: (parse_row <$> more))) as Hshape.
    pose proof (fill_table_header (length (parse_row <$> more))
                  (parse_row raw) (parse_row <$> more)) as Hhead.
    unfold new_table in Hlen at 2.
    rewrite length_replicate, length_fmap in Hlen.
    rewrite length_fmap in *.
    assert (∀ grid res,
              fill_table (new_table (S (length more))
                            (length (parse_row raw))) 0
                (parse_row raw :: (parse_row <$> more)) = (grid, res) →
              Forall (λ cells, length cells = length (parse_row raw)) grid)
      as Hwidth.
    { intros grid res Hfill. rewrite Hfill in Hshape, Hlen.
      simpl in Hshape, Hlen. apply Forall_lookup. intros k cells Hcells.
      assert (new_table (S (length more)) (length (parse_row raw)) !! k
              = Some (replicate (length (parse_row raw)) empty_cell))
        as Hnew.
      { apply lookup_replicate_2. apply lookup_lt_Some in Hcells. lia. }
      destruct (Hshape k _ Hnew) as (cells' & Hcells' & Hlenc & _).
      rewrite length_replicate in Hlenc. congruence. }
    destruct (fill_table _ _ _) as [grid [[]|e]] eqn:Hfill;
      simpl in Hlen, Hhead; eexists grid, _, _;
      (split_and!; [done|done|done|by eapply Hwidth|done]).
  - intros Hsep.
    assert (collect_table_lines (drop i lines) i []
            = collect_table_lines (drop (S i) lines) (S i) []) as Hskip.
    { rewrite (drop_S _ _ _ Hraw). cbn [collect_table_lines].
      by rewrite (table_start_pipe _ _ _ Hstart), Hsep. }
    unfold table_lines_at, add_table_from_markdown. by rewrite Hskip.
  - intros Hnone. apply add_table_from_markdown_empty.
    unfold table_rows_at. by rewrite Hnone.
Qed.

Lemma add_table_from_markdown_first_row_witness :
  let lines := [line_of "| A | B |"; line_of "|---|---|"; line_of "| 1 | 2 |"] in
  ∃ more grid tail r,
    table_lines_at lines 0 = line_of "| A | B |" :: more
    ∧ add_table_from_markdown [] lines 0 = ([] ++ Table grid :: tail, r)
    ∧ length grid = S (length more)
    ∧ Forall (λ cells, length cells = length (parse_row (line_of "| A | B |")))
        grid
    ∧ (all_storable (parse_row (line_of "| A | B |")) →
       grid !! 0
       = Some (written_cell 0 <$> parse_row (line_of "| A | B |"))).
Proof.
  apply (proj1 (add_table_from_markdown_first_row []
                  [line_of "| A | B |"; line_of "|---|---|";
                   line_of "| 1 | 2 |"]
                  0 (line_of "| A | B |") eq_refl eq_refl)).
  reflexivity.
Defined.

(** C6. The block [| A | B |], [|---|---|], [| 1 | 2 |] becomes exactly one
    table with the grid [[A, B], [1, 2]], whose row 0 carries the header
    formatting and whose row 1 does not, followed by the spacer
    paragraph. *)
Theorem process_lines_table_example (doc : document) :
  process_lines doc
    [line_of "| A | B |"; line_of "|---|---|"; line_of "| 1 | 2 |"]
  = Some
      (doc ++
       [Table
          [[ {| cell_text := lit "A"; cell_header := true |};
             {| cell_text := lit "B"; cell_header := true |} ];
           [ {| cell_text := lit "1"; cell_header := false |};
             {| cell_text := lit "2"; cell_header := false |} ]];
        Paragraph []],
       Ok ()).
Proof. reflexivity. Qed.

(** ** The loop of [process_markdown_file] *)

Section loop.

Implicit Types (doc : document) (lines : list str).

Lemma rstrip_cons (c : N) (s : str) :
  Py.rstrip (c :: s) = [] ∨ ∃ r, Py.rstrip (c :: s) = c :: r.
Proof.
  simpl. destruct (Py.rstrip s); [|by eauto].
  destruct (Py.isspace c); eauto.
Qed.

Lemma strip_hash (s : str) : Py.strip (ch_hash :: s) ≠ lit "---".
Proof.
  unfold Py.strip. change (Py.lstrip (ch_hash :: s)) with (ch_hash :: s).
  by destruct (rstrip_cons ch_hash s) as [->|[r ->]].
Qed.

Lemma add_table_from_markdown_idx doc lines i doc' idx :
  add_table_from_markdown doc lines i = (doc', Ok idx) →
  idx = table_end_at lines i.
Proof.
  unfold add_table_from_markdown, table_end_at.
  destruct (collect_table_lines _ _ _) as [idx' table_lines]. simpl.
  destruct table_lines; [by intros [= _ <-]|].
  destruct (fill_table _ _ _) as [? [[]|e]]; [by intros [= _ <-]|done].
Qed.

Lemma table_end_at_progress lines i raw :
  lines !! i = Some raw →
  Py.contains_char ch_pipe raw = true →
  i < table_end_at lines i ≤ length lines.
Proof.
  intros Hraw Hpipe. unfold table_end_at.
  pose proof (collect_table_lines_idx (drop i lines) i []) as Hle.
  rewrite length_drop in Hle. apply lookup_lt_Some in Hraw as Hlt.
  split; [|lia]. rewrite (drop_S _ _ _ Hraw).
  by apply collect_table_lines_first.
Qed.

Lemma after_call_next i (out : document * result unit) i' doc' :
  after_call i out = Next i' doc' → i' = i ∧ out = (doc', Ok ()).
Proof. destruct out as [d [[]|e]]; [|done]. by intros [= <- <-]. Qed.

Lemma after_call_raised i (out : document * result unit) doc' e :
  after_call i out = Raised doc' e → out = (doc', Raise e).
Proof. destruct out as [d [[]|e']]; [done|]. by intros [= <- <-]. Qed.

(** Every iteration that does not raise moves the index forward, and
    never past the end. *)
Lemma loop_body_progress lines i raw doc i' doc' :
  lines !! i = Some raw →
  loop_body lines i raw doc = Next i' doc' →
  i < i' ≤ length lines.
Proof.
  intros Hraw. apply lookup_lt_Some in Hraw as Hlt. unfold loop_body.
  repeat match goal with
         | |- context [if ?b then _ else _] => destruct b eqn:?
         end;
    try (intros [= <- _]; lia);
    try (intros [-> _]%after_call_next; lia).
  destruct (add_table_from_markdown doc lines i) as [d [idx|e]] eqn:Htab;
    [|done].
  intros [= <- _]. apply add_table_from_markdown_idx in Htab as ->.
  eapply table_end_at_progress; [done|]. by eapply table_start_pipe.
Qed.

(** A heading line takes the heading branch of its level. *)
Lemma loop_body_hashes lines i raw doc n (rest : str) :
  1 ≤ n ≤ 4 →
  Py.rstrip raw = replicate n ch_hash ++ ch_space :: rest →
  loop_body lines i raw doc = after_call (i + 1) (add_heading doc rest n).
Proof.
  intros Hn Hline. unfold loop_body. rewrite Hline.
  destruct n as [|[|[|[|[|n]]]]]; try lia; cbn [replicate app];
    rewrite (bool_decide_eq_false_2 (Py.strip _ = _)) by apply strip_hash;
    reflexivity.
Qed.

Lemma process_loop_total fuel lines i doc :
  length lines - i < fuel →
  ∃ out, process_loop fuel lines i doc = Some out.
Proof.
  revert i doc. induction fuel as [|fuel IH]; intros i doc Hfuel; [lia|].
  simpl. destruct (lines !! i) as [raw|] eqn:Hraw; [|by eauto].
  destruct (loop_body lines i raw doc) as [i' doc'|doc' e] eqn:Hbody;
    [|by eauto].
  apply loop_body_progress in Hbody; [|done].
  apply IH. lia.
Qed.

Lemma process_loop_mono fuel fuel' lines i doc out :
  process_loop fuel lines i doc = Some out →
  fuel ≤ fuel' →
  process_loop fuel' lines i doc = Some out.
Proof.
  revert fuel' i doc.
  induction fuel as [|fuel IH]; intros fuel' i doc; [done|].
  intros Hrun Hle. destruct fuel' as [|fuel']; [lia|]. simpl in *.
  destruct (lines !! i) as [raw|]; [|done].
  destruct (loop_body lines i raw doc); [|done].
  apply IH; [done|lia].
Qed.

(** A result of the fuelled loop is a halting state of the transition
    system, reached in finitely many iterations. *)
Lemma process_loop_halts fuel lines i doc out :
  process_loop fuel lines i doc = Some out →
  ∃ st, rtc (loop_step lines) (i, doc) st ∧ loop_halts lines st out.
Proof.
  revert i doc. induction fuel as [|fuel IH]; intros i doc; [done|].
  simpl. destruct (lines !! i) as [raw|] eqn:Hraw.
  - destruct (loop_body lines i raw doc) as [i' doc'|doc' e] eqn:Hbody.
    + intros (st & Hreach & Hhalt)%IH. exists st. split; [|done].
      eapply rtc_l; [|done]. by econstructor.
    + intros [= <-]. exists (i, doc). split; [done|]. by econstructor.
  - intros [= <-]. exists (i, doc). split; [done|]. by constructor.
Qed.

End loop.

Section frame.

Implicit Types (doc : document) (lines : list str).

(** The converter only appends: what it does on a document is what it
    does on the empty one, behind the blocks already there. *)
Lemma add_table_from_markdown_frame doc lines i :
  add_table_from_markdown doc lines i
  = (doc ++ (add_table_from_markdown [] lines i).1,
     (add_table_from_markdown [] lines i).2).
Proof.
  unfold add_table_from_markdown.
  destruct (collect_table_lines _ _ _) as [idx table_lines].
  destruct table_lines as [|l table_lines]; [simpl; by rewrite app_nil_r|].
  by destruct (fill_table _ _ _) as [? [[]|e]].
Qed.

Lemma add_heading_frame doc text level :
  add_heading doc text level
  = (doc ++ (add_heading [] text level).1, (add_heading [] text level).2).
Proof. unfold add_heading. by destruct (Docx.set_text text) as [w [[]|e]]. Qed.

Lemma add_paragraph_frame doc text bold italic :
  add_paragraph doc text bold italic
  = (doc ++ (add_paragraph [] text bold italic).1,
     (add_paragraph [] text bold italic).2).
Proof. unfold add_paragraph. by destruct (add_runs _ _ _ _) as [runs r]. Qed.

Lemma after_call_frame i doc (out : document * result unit) :
  after_call i (doc ++ out.1, out.2) = on_document doc (after_call i out).
Proof. by destruct out as [d [[]|e]]. Qed.

Lemma loop_body_frame lines i raw doc :
  loop_body lines i raw doc = on_document doc (loop_body lines i raw []).
Proof.
  unfold loop_body.
  rewrite (add_table_from_markdown_frame doc).
  rewrite !(add_heading_frame doc), (add_paragraph_frame doc).
  rewrite !after_call_frame.
  destruct (add_table_from_markdown [] lines i) as [d [idx|e]].
  all: repeat match goal with
              | |- context [if ?b then _ else _] => destruct b eqn:?
              end; simpl; by rewrite ?app_nil_r.
Qed.

Lemma process_loop_frame fuel lines i doc :
  process_loop fuel lines i doc
  = (λ out, (doc ++ out.1, out.2)) <$> process_loop fuel lines i [].
Proof.
  revert i doc. induction fuel as [|fuel IH]; intros i doc; [done|].
  simpl. destruct (lines !! i) as [raw|]; simpl; [|by rewrite app_nil_r].
  rewrite (loop_body_frame _ _ _ doc).
  destruct (loop_body lines i raw []) as [i' d|d e]; simpl; [|done].
  rewrite (IH i' (doc ++ d)), (IH i' d).
  destruct (process_loop fuel lines i' []) as [[d' r]|]; simpl; [|done].
  by rewrite app_assoc.
Qed.

Lemma process_lines_total doc lines :
  ∃ ops r, process_lines doc lines = Some (doc ++ ops, r)
           ∧ process_lines [] lines = Some (ops, r).
Proof.
  unfold process_lines.
  destruct (process_loop_total (S (length lines)) lines 0 [])
    as [[ops r] Hrun]; [lia|].
  exists ops, r. by rewrite process_loop_frame, Hrun.
Qed.

Lemma process_markdown_file_total fs doc md_file :
  ∃ ops r,
    process_markdown_file fs doc md_file = Some (doc ++ ops, r)
    ∧ process_markdown_file fs [] md_file = Some (ops, r).
Proof.
  unfold process_markdown_file. destruct (fs md_file) as [lines|e].
  - apply process_lines_total.
  - exists [], (Raise e). by rewrite app_nil_r.
Qed.

End frame.

(** C9. Processing a file terminates, for every list of lines: an
    iteration of the loop that does not raise ends at a strictly larger
    index; the table parser returns an index strictly larger than the one
    it was given whenever the line there contains a pipe, which the line
    that triggered table detection does; and from its first state the
    loop reaches, in finitely many iterations, a state where it halts
    with a result (the one the fuelled loop computes). *)
Theorem process_lines_terminates (lines : list str) :
  (∀ i raw doc i' doc',
     lines !! i = Some raw →
     loop_body lines i raw doc = Next i' doc' → i < i')
  ∧ (∀ i raw doc doc' idx,
       lines !! i = Some raw →
       Py.contains_char ch_pipe raw = true →
       add_table_from_markdown doc lines i = (doc', Ok idx) → i < idx)
  ∧ (∀ i raw, lines !! i = Some raw →
       table_start lines i (Py.rstrip raw) = true →
       Py.contains_char ch_pipe raw = true)
  ∧ (∀ doc, ∃ st out,
       rtc (loop_step lines) (0, doc) st
       ∧ loop_halts lines st out
       ∧ process_lines doc lines = Some out).
Proof.
  split_and!.
  - intros i raw doc i' doc' Hraw Hbody.
    by apply (loop_body_progress _ _ _ _ _ _ Hraw) in Hbody as [? _].
  - intros i raw doc doc' idx Hraw Hpipe Htab.
    apply add_table_from_markdown_idx in Htab as ->.
    by apply (table_end_at_progress _ _ _ Hraw) in Hpipe as [? _].
  - intros i raw _. apply table_start_pipe.
  - intros doc.
    destruct (process_loop_total (S (length lines)) lines 0 doc)
      as [out Hrun]; [lia|].
    destruct (process_loop_halts _ _ _ _ _ Hrun) as (st & Hreach & Hhalt).
    by exists st, out.
Qed.

(** C8. The blocks that the converter emits for a list of lines, and the
    way it ends, are the same whatever the sink holds: on two sinks the
    same sequence is appended, so two fresh sinks end up identical. *)
Theorem process_lines_deterministic (lines : list str)
    (sink1 sink2 : document) :
  ∃ ops r,
    process_lines sink1 lines = Some (sink1 ++ ops, r)
    ∧ process_lines sink2 lines = Some (sink2 ++ ops, r).
Proof.
  destruct (process_lines_total sink1 lines) as (ops & r & H1 & H0).
  destruct (process_lines_total sink2 lines) as (ops' & r' & H2 & H0').
  rewrite H0 in H0'. injection H0' as <- <-. by exists ops, r.
Qed.

Section reach.

Implicit Types (doc : document) (lines : list str).

Lemma process_loop_steps lines st st' :
  rtc (loop_step lines) st st' →
  ∀ fuel out,
    process_loop fuel lines st'.1 st'.2 = Some out →
    ∃ fuel', process_loop fuel' lines st.1 st.2 = Some out.
Proof.
  induction 1 as [st|st st1 st' Hstep _ IH]; intros fuel out Hrun.
  - by exists fuel.
  - destruct (IH _ _ Hrun) as [fuel' Hrun'].
    destruct Hstep as [i raw doc i' doc' Hraw Hbody].
    exists (S fuel'). simpl in *. by rewrite Hraw, Hbody.
Qed.

(** A result reached from a state that the loop passes through is the
    result of the whole file. *)
Lemma process_lines_reach lines doc i doc_i fuel out :
  rtc (loop_step lines) (0, doc) (i, doc_i) →
  process_loop fuel lines i doc_i = Some out →
  process_lines doc lines = Some out.
Proof.
  intros Hreach Hrun.
  destruct (process_loop_steps _ _ _ Hreach fuel out Hrun)
    as [fuel' Hrun'].
  simpl in Hrun'. unfold process_lines.
  destruct (process_loop_total (S (length lines)) lines 0 doc)
    as [out0 Hout0]; [lia|].
  rewrite Hout0.
  apply (process_loop_mono _ (fuel' `max` S (length lines))) in Hrun';
    [|lia].
  apply (process_loop_mono _ (fuel' `max` S (length lines))) in Hout0;
    [|lia].
  congruence.
Qed.

Lemma loop_body_table lines i raw doc :
  table_branch lines i raw = true →
  loop_body lines i raw doc
  = match add_table_from_markdown doc lines i with
    | (doc', Ok idx) => Next idx doc'
    | (doc', Raise e) => Raised doc' e
    end.
Proof.
  unfold table_branch, loop_body. intros H.
  repeat match type of H with
         | _ && _ = true => apply andb_true_iff in H as [H ?]
         end.
  repeat match goal with
         | H : negb ?b = true |- _ =>
             apply negb_true_iff in H; rewrite H; clear H
         end.
  by match goal with H : table_start _ _ _ = true |- _ => rewrite H end.
Qed.

(** A row with more cells than the header makes the fill raise. *)
Lemma add_table_from_markdown_overflow doc lines start_idx header
    (good : list (list str)) (bad : list str) (rest : list (list str)) :
  table_rows_at lines start_idx = header :: good ++ bad :: rest →
  Forall (λ row_data, length row_data ≤ length header) good →
  length header < length bad →
  Forall (λ row_data, all_storable row_data) (header :: good) →
  all_storable (take (length header) bad) →
  add_table_from_markdown doc lines start_idx
  = (doc
     ++ [Table
           (imap (filled_row (length header)) (header :: good)
            ++ (written_cell (S (length good))
                <$> take (length header) bad)
            :: replicate (length rest)
                 (replicate (length header) empty_cell))],
     Raise IndexError).
Proof.
  intros Hrows Hgood Hbad Hst Hst'.
  rewrite (add_table_from_markdown_rows _ _ _ _ _ Hrows).
  pose proof (fill_table_overflow [] (length header) (header :: good)
                bad rest) as Hfill.
  cbn [app length Nat.add] in Hfill. unfold new_table.
  replace (S (length (good ++ bad :: rest)))
    with (length (header :: good ++ bad :: rest)) by done.
  cbn [length]. rewrite Hfill; [done| |done|done|done].
  by constructor.
Qed.

Lemma add_table_from_markdown_page_breaks lines i :
  page_breaks (add_table_from_markdown [] lines i).1 = 0.
Proof.
  unfold add_table_from_markdown.
  destruct (collect_table_lines _ _ _) as [idx table_lines].
  destruct table_lines as [|l table_lines]; [done|].
  by destruct (fill_table _ _ _) as [? [[]|e]].
Qed.

Lemma page_breaks_app doc1 doc2 :
  page_breaks (doc1 ++ doc2) = page_breaks doc1 + page_breaks doc2.
Proof. unfold page_breaks. by rewrite filter_app, length_app. Qed.

Lemma loop_body_page_breaks lines i raw doc :
  match loop_body lines i raw doc with
  | Next _ doc' | Raised doc' _ => page_breaks doc' = page_breaks doc
  end.
Proof.
  rewrite loop_body_frame.
  assert (match loop_body lines i raw [] with
          | Next _ d | Raised d _ => page_breaks d = 0
          end) as H0.
  { unfold loop_body, after_call, add_heading, add_paragraph.
    pose proof (add_table_from_markdown_page_breaks lines i) as Htab.
    destruct (add_table_from_markdown [] lines i) as [d [idx|e]].
    all: repeat match goal with
                | |- context [if ?b then _ else _] => destruct b eqn:?
                end; try done.
    all: repeat match goal with
                | |- context [Docx.set_text ?t] =>
                    destruct (Docx.set_text t) as [? [[]|?]]
                | |- context [add_runs ?p ?b ?c ?r] =>
                    destruct (add_runs p b c r) as [? [[]|?]]
                end; done. }
  destruct (loop_body lines i raw []) as [i' d|d e]; simpl;
    rewrite page_breaks_app; lia.
Qed.

Lemma process_loop_page_breaks fuel lines i doc doc' r :
  process_loop fuel lines i doc = Some (doc', r) →
  page_breaks doc' = page_breaks doc.
Proof.
  revert i doc. induction fuel as [|fuel IH]; intros i doc; [done|].
  simpl. destruct (lines !! i) as [raw|]; [|by intros [= <- _]].
  pose proof (loop_body_page_breaks lines i raw doc) as Hbody.
  destruct (loop_body lines i raw doc) as [i' d|d e].
  - intros Hrun. apply IH in Hrun. lia.
  - by intros [= <- _].
Qed.

Lemma file_ops_page_breaks fs md_file :
  page_breaks (file_ops fs md_file) = 0.
Proof.
  unfold file_ops, process_markdown_file, process_lines.
  destruct (fs md_file) as [lines|e]; [|done].
  destruct (process_loop _ _ _ _) as [[ops r]|] eqn:Hrun; [|done].
  by apply process_loop_page_breaks in Hrun.
Qed.

Lemma merge_files_blocks fs files doc :
  merge_files fs doc files
  = Some (doc ++ concat (file_blocks fs <$> files)).
Proof.
  revert doc. induction files as [|md_file files IH]; intros doc; simpl.
  - by rewrite app_nil_r.
  - destruct (process_markdown_file_total fs doc md_file)
      as (ops & r & Hdoc & Hops).
    rewrite Hdoc. unfold file_blocks, file_ops, finished. rewrite Hops.
    destruct r as [[]|[]]; rewrite IH; unfold add_page_break;
      by rewrite <- ?app_assoc, ?app_nil_r.
Qed.

End reach.




(** C3, as stated, fails: a data row with more cells than the header is
    neither padded nor truncated.  Writing its first extra cell raises
    [IndexError]; the paragraph after the table is never emitted, the file
    gets no page break, and [main] goes on with the next file. *)
Lemma long_row_aborts_file :
  let lines :=
    [line_of "| A |"; line_of "|---|"; line_of "| 1 | 2 |";
     line_of "After the table."] in
  let fs := λ path : list N,
    if bool_decide (path = lit "a.md") then Ok lines
    else Ok [line_of "# Next"] in
  let table :=
    Table [[ {| cell_text := lit "A"; cell_header := true |} ];
           [ {| cell_text := lit "1"; cell_header := false |} ]] in
  process_lines [] lines = Some ([table], Raise IndexError)
  ∧ main None fs [lit "a.md"; lit "b.md"]
    = Some [PageBreak; table; Heading (lit "Next") 1; PageBreak].
Proof. split; reflexivity. Qed.

(** C3, amended. At a table block whose rows are [header :: data] and
    whose texts python-docx stores: when no data row has more cells than
    the header, the loop emits the table, with every short row padded with
    empty cells, and the spacer, and continues behind the block; when
    [bad] is the first data row with more cells than the header, filling
    the table raises [IndexError] at that row, which ends the processing
    of this file with the table as the last block in the document (the
    rows before [bad] filled, [bad] cut to the header's width, the rows
    behind it empty), and [main] continues with the next file on that
    document, without a page break. *)
Theorem table_row_count_mismatch (fs : filesystem)
    (doc : document) (md_file : str) (files : list str)
    (lines : list str) (i : nat) (doc_i : document) (raw : str)
    (header : list str) (data : list (list str)) :
  fs md_file = Ok lines →
  rtc (loop_step lines) (0, doc) (i, doc_i) →
  lines !! i = Some raw →
  table_branch lines i raw = true →
  table_rows_at lines i = header :: data →
  (Forall (λ row_data, length row_data ≤ length header) data →
   Forall (λ row_data, all_storable row_data) (header :: data) →
   loop_step lines (i, doc_i)
     (table_end_at lines i,
      doc_i ++ [Table (imap (λ k row_data,
                               (written_cell k <$> row_data)
                               ++ replicate (length header - length row_data)
                                    empty_cell)
                         (header :: data));
                Paragraph []])
   ∧ i < table_end_at lines i)
  ∧ (∀ good bad rest,
       data = good ++ bad :: rest →
       Forall (λ row_data, length row_data ≤ length header) good →
       length header < length bad →
       Forall (λ row_data, all_storable row_data) (header :: good) →
       all_storable (take (length header) bad) →
       let grid :=
         imap (λ k row_data,
                 (written_cell k <$> row_data)
                 ++ replicate (length header - length row_data) empty_cell)
           (header :: good)
         ++ (written_cell (S (length good)) <$> take (length header) bad)
         :: replicate (length rest) (replicate (length header) empty_cell) in
       process_markdown_file fs doc md_file
       = Some (doc_i ++ [Table grid], Raise IndexError)
       ∧ merge_files fs doc (md_file :: files)
         = merge_files fs (doc_i ++ [Table grid]) files).
Proof.
  intros Hfs Hreach Hraw Hbranch Hrows. split.
  - intros Hdata Hst.
    pose proof (add_table_from_markdown_fits doc_i lines i header data
                  Hrows Hdata Hst) as Htab.
    split.
    + econstructor; [done|].
      by rewrite (loop_body_table _ _ _ _ Hbranch), Htab.
    + eapply table_end_at_progress; [done|].
      apply andb_true_iff in Hbranch as [_ Hstart].
      by eapply table_start_pipe.
  - intros good bad rest -> Hgood Hbad Hst Hst' grid.
    pose proof (add_table_from_markdown_overflow doc_i lines i header good
                  bad rest Hrows Hgood Hbad Hst Hst') as Htab.
    assert (process_markdown_file fs doc md_file
            = Some (doc_i ++ [Table grid], Raise IndexError)) as Hfile.
    { unfold process_markdown_file. rewrite Hfs.
      apply (process_lines_reach lines doc i doc_i 1); [done|].
      simpl. by rewrite Hraw, (loop_body_table _ _ _ _ Hbranch), Htab. }
    split; [done|]. simpl. by rewrite Hfile.
Qed.

Lemma table_row_count_mismatch_witness :
  let lines :=
    [line_of "## Results"; line_of "| A |"; line_of "|---|";
     line_of "| 1 |"; line_of "| 2 | 3 |"; line_of "| 4 |";
     line_of "After the table."] in
  let fs := λ _ : list N, Ok lines in
  let grid :=
    [[ {| cell_text := lit "A"; cell_header := true |} ];
     [ {| cell_text := lit "1"; cell_header := false |} ];
     [ {| cell_text := lit "2"; cell_header := false |} ];
     [ empty_cell ]] in
  process_markdown_file fs [] (lit "a.md")
  = Some ([Heading (lit "Results") 2] ++ [Table grid], Raise IndexError)
  ∧ merge_files fs [] [lit "a.md"; lit "b.md"]
    = merge_files fs ([Heading (lit "Results") 2] ++ [Table grid])
        [lit "b.md"].
Proof.
  intros lines fs.
  apply (proj2 (table_row_count_mismatch fs [] (lit "a.md") [lit "b.md"]
                  lines 1 [Heading (lit "Results") 2] (line_of "| A |")
                  [lit "A"] [[lit "1"]; [lit "2"; lit "3"]; [lit "4"]]
                  eq_refl
                  (rtc_once _ _
                     (loop_step_next lines 0 (line_of "## Results") []
                        1 [Heading (lit "Results") 2] eq_refl eq_refl))
                  eq_refl eq_refl eq_refl)
           [[lit "1"]] [lit "2"; lit "3"] [[lit "4"]] eq_refl).
  - repeat constructor.
  - simpl. lia.
  - by repeat constructor.
  - reflexivity.
Defined.

(** C4. [main] puts one page break behind the base document and then,
    file by file, the blocks of the file followed by exactly one page
    break when the processing of the file finished (and none when the
    file was missing or raised); the blocks of a file never contain a
    page break themselves. *)
Theorem main_page_breaks (input_docx : option document)
    (fs : filesystem) (markdown_files : list str) :
  main input_docx fs markdown_files
  = Some ((default [] input_docx ++ [PageBreak])
          ++ concat ((λ md_file,
                        file_ops fs md_file
                        ++ (if finished fs md_file then [PageBreak] else []))
                     <$> markdown_files))
  ∧ ∀ md_file, page_breaks (file_ops fs md_file) = 0.
Proof.
  split; [|apply file_ops_page_breaks].
  unfold main, add_page_break. apply merge_files_blocks.
Qed.

Lemma process_lines_terminates_witness :
  let lines :=
    [line_of "| A | B |"; line_of "|---|---|"; line_of "| 1 | 2 |"] in
  0 < 3 ∧ ∃ st out,
    rtc (loop_step lines) (0, []) st
    ∧ loop_halts lines st out
    ∧ process_lines [] lines = Some out.
Proof.
  intros lines.
  pose proof (process_lines_terminates lines) as (_ & Htab & _ & Hend).
  split.
  - apply (Htab 0 (line_of "| A | B |") []
             [Table
                [[ {| cell_text := lit "A"; cell_header := true |};
                   {| cell_text := lit "B"; cell_header := true |} ];
                 [ {| cell_text := lit "1"; cell_header := false |};
                   {| cell_text := lit "2"; cell_header := false |} ]];
              Paragraph []] 3); reflexivity.
  - apply Hend.
Defined.


(** * Further properties *)

(** ** The shape of the runs *)

Section spans.

Implicit Types (s text inner pre post : str) (ms : list (nat * nat)).

Lemma contains_cons_false (p : str) (c : N) s :
  Py.contains p (c :: s) = false →
  Py.startswith p (c :: s) = false ∧ Py.contains p s = false.
Proof. simpl. by intros [? ?]%orb_false_iff. Qed.

Lemma lazy_to_star_inner s k :
  Re.lazy_to_star s = Some k →
  ∃ rest, s = take k s ++ ch_star :: rest ∧ length (take k s) = k
          ∧ italic_inner (take k s).
Proof.
  revert k. induction s as [|c s IH]; intros k; simpl; [done|].
  case_bool_decide as Hc.
  { intros [= <-]. subst. exists s. by repeat split; try apply not_elem_of_nil. }
  case_bool_decide as Hn; [done|].
  destruct (Re.lazy_to_star s) as [k'|]; simpl; [|done].
  intros [= <-]. destruct (IH k' eq_refl) as (rest & Hs & Hlen & Hst & Hnl).
  exists rest. simpl. rewrite Hlen. split; [by rewrite <- Hs|].
  split; [done|]. split; apply not_elem_of_cons; by split.
Qed.

Lemma lazy_to_star2_inner s k :
  Re.lazy_to_star2 s = Some k →
  ∃ rest, s = take k s ++ ch_star :: ch_star :: rest
          ∧ length (take k s) = k ∧ bold_inner (take k s).
Proof.
  revert k. induction s as [|c s IH]; intros k; [done|].
  cbn [Re.lazy_to_star2].
  destruct (Py.startswith [ch_star; ch_star] (c :: s)) eqn:Hst.
  { intros [= <-]. apply startswith_prefix in Hst as [rest Hrest].
    exists rest. repeat split; try done. apply not_elem_of_nil. }
  case_bool_decide as Hn; [done|].
  destruct (Re.lazy_to_star2 s) as [k'|] eqn:Hk; simpl; [|done].
  intros [= <-]. destruct (IH k' eq_refl) as (rest & Hs & Hlen & Hnl & Hno).
  exists rest. simpl. rewrite Hlen. split; [by rewrite <- Hs|].
  split; [done|]. split; [apply not_elem_of_cons; by split|].
  change (lit "**") with [ch_star; ch_star] in *.
  cbn [Py.contains app]. rewrite Hno, orb_false_r.
  destruct (Py.startswith [ch_star; ch_star] (c :: take k' s ++ [ch_star]))
    eqn:Hst'; [|done].
  apply startswith_prefix in Hst' as [r Hr].
  assert ([ch_star; ch_star] `prefix_of` c :: s) as Hp; [|by
    apply startswith_prefix in Hp; congruence].
  rewrite Hs. injection Hr as -> Hr.
  destruct (take k' s) as [|d t]; simpl in *.
  - by eexists.
  - injection Hr as -> _. by eexists.
Qed.

Lemma lazy_to_star_app inner rest :
  italic_inner inner →
  Re.lazy_to_star (inner ++ ch_star :: rest) = Some (length inner).
Proof.
  intros [Hst Hnl]. induction inner as [|c inner IH]; [done|].
  apply not_elem_of_cons in Hst as [? ?].
  apply not_elem_of_cons in Hnl as [? ?].
  cbn [Re.lazy_to_star app length].
  rewrite !bool_decide_eq_false_2 by done. by rewrite IH.
Qed.

Lemma lazy_to_star2_app inner rest :
  bold_inner inner →
  Re.lazy_to_star2 (inner ++ ch_star :: ch_star :: rest)
  = Some (length inner).
Proof.
  intros [Hnl Hno]. change (lit "**") with [ch_star; ch_star] in Hno.
  induction inner as [|c inner IH]; cbn [Re.lazy_to_star2 app length].
  - by rewrite (proj2 (startswith_prefix _ _)) by (by eexists).
  - apply not_elem_of_cons in Hnl as [? ?].
    destruct (contains_cons_false [ch_star; ch_star] c
                (inner ++ [ch_star]) Hno) as [Hhere Hno'].
    destruct (Py.startswith [ch_star; ch_star]
                (c :: inner ++ ch_star :: ch_star :: rest)) eqn:Hst.
    { apply startswith_prefix in Hst as [r Hr]. injection Hr as -> Hr.
      assert (Py.startswith [ch_star; ch_star]
                (ch_star :: inner ++ [ch_star]) = true) as Hst'.
      { apply startswith_prefix.
        destruct inner as [|d t]; simpl in *; [by eexists|].
        injection Hr as -> _. by eexists. }
      congruence. }
    rewrite bool_decide_eq_false_2 by done. by rewrite IH.
Qed.

Lemma lazy_to_star2_no_star s : ch_star ∉ s → Re.lazy_to_star2 s = None.
Proof.
  intros Hs. destruct (Re.lazy_to_star2 s) as [k|] eqn:Hk; [|done].
  apply lazy_to_star2_Some in Hk as [Hk _].
  destruct Hs. by eapply list_elem_of_lookup_2.
Qed.

(** What [match_here] finds is a span, of the length it reports. *)
Lemma match_here_span s n :
  Re.match_here s = Some n →
  n ≤ length s ∧ span_match (take n s).
Proof.
  intros H. pose proof (match_here_Some _ _ H) as [[_ Hn] _].
  split; [done|]. revert H. unfold Re.match_here, span_match.
  change (lit "**") with [ch_star; ch_star].
  change (lit "*") with [ch_star].
  destruct (Py.startswith [ch_star; ch_star] s) eqn:H2.
  - apply startswith_prefix in H2 as [r ->]. simpl. rewrite drop_0.
    destruct (Re.lazy_to_star2 r) as [k|] eqn:Hk; simpl.
    + intros [= <-]. left.
      apply lazy_to_star2_inner in Hk as (rest & Hr & Hlen & Hin).
      exists (take k r). split; [|done]. rewrite Hr at 1.
      replace (k + 4) with (S (S (k + 2))) by lia. simpl. do 2 f_equal.
      rewrite take_app_ge by lia. f_equal. rewrite Hlen.
      by replace (k + 2 - k) with 2 by lia.
    + intros [= <-]. right. exists []. by repeat split; try apply not_elem_of_nil.
  - destruct (Py.startswith [ch_star] s) eqn:H1; [|done].
    apply startswith_prefix in H1 as [r ->]. simpl. rewrite drop_0.
    destruct (Re.lazy_to_star r) as [k|] eqn:Hk; simpl; [|done].
    intros [= <-]. right.
    apply lazy_to_star_inner in Hk as (rest & Hr & Hlen & Hin).
    exists (take k r). split; [|done]. rewrite Hr at 1.
    replace (k + 2) with (S (k + 1)) by lia. simpl. f_equal.
    rewrite take_app_ge by lia. f_equal. rewrite Hlen.
    by replace (k + 1 - k) with 1 by lia.
Qed.

Lemma spans_from_le text cur cur' ms :
  cur ≤ cur' → spans_from text cur' ms → spans_from text cur ms.
Proof.
  destruct ms as [|[a b] ms]; simpl; [done|].
  intros ? (?&?); split; [lia|done].
Qed.

Lemma finditer_from_spans pre s skip :
  skip ≤ length s →
  spans_from (pre ++ s) (length pre + skip)
    (Re.finditer_from skip (length pre) s).
Proof.
  revert pre skip. induction s as [|c s IH]; intros pre skip Hskip; [done|].
  cbn [Re.finditer_from].
  assert (∀ k, k ≤ length s →
            spans_from (pre ++ c :: s) (length pre + S k)
              (Re.finditer_from k (S (length pre)) s)) as IH'.
  { intros k Hk. specialize (IH (pre ++ [c]) k Hk).
    rewrite <- app_assoc, length_app in IH. simpl in IH.
    by replace (length pre + 1) with (S (length pre)) in IH by lia;
      replace (S (length pre) + k) with (length pre + S k) in IH by lia. }
  destruct skip as [|k].
  - destruct (Re.match_here (c :: s)) as [n|] eqn:Hn.
    + pose proof (match_here_Some _ _ Hn) as [[Hn2 _] _].
      apply match_here_span in Hn as [Hn Hspan]. simpl in Hn.
      assert (Py.slice (length pre) (length pre + n) (pre ++ c :: s)
              = take n (c :: s)) as Hsl.
      { unfold Py.slice. rewrite drop_app_length. f_equal. lia. }
      cbn [spans_from]. rewrite Hsl, length_app. simpl.
      split_and!; [lia|lia|lia|done|].
      replace (length pre + n) with (length pre + S (n - 1)) by lia.
      apply IH'. lia.
    + eapply spans_from_le; [|apply (IH' 0); lia]. lia.
  - apply IH'. simpl in Hskip. lia.
Qed.

Lemma slice_neg_middle {A} (l1 l l2 : list A) :
  Py.slice_neg (length l1) (length l2) (l1 ++ l ++ l2) = l.
Proof.
  unfold Py.slice_neg, Py.slice. rewrite drop_app_length, !length_app.
  replace (length l1 + (length l + length l2) - length l2 - length l1)
    with (length l) by lia.
  by rewrite take_app_length.
Qed.

(** The run that [inline_step] makes of a span. *)
Lemma inline_step_bold text (parts : list run) cur a b inner :
  Py.slice a b text = [ch_star; ch_star] ++ inner ++ [ch_star; ch_star] →
  inline_step text (parts, cur) (a, b)
  = ((if bool_decide (cur < a)
      then parts ++ [(Py.slice cur a text, false, false)]
      else parts) ++ [(inner, true, false)], b).
Proof.
  intros Hm. unfold inline_step. rewrite Hm.
  rewrite (proj2 (startswith_prefix (lit "**") _)) by (by eexists).
  rewrite (proj2 (endswith_suffix (lit "**") _))
    by (exists ([ch_star; ch_star] ++ inner); by rewrite <- app_assoc).
  simpl andb. cbv iota.
  pose proof (slice_neg_middle [ch_star; ch_star] inner
                [ch_star; ch_star]) as Hs.
  cbn [length] in Hs. by rewrite Hs.
Qed.

Lemma inline_step_italic text (parts : list run) cur a b inner :
  Py.slice a b text = [ch_star] ++ inner ++ [ch_star] →
  ch_star ∉ inner →
  inline_step text (parts, cur) (a, b)
  = ((if bool_decide (cur < a)
      then parts ++ [(Py.slice cur a text, false, false)]
      else parts)
     ++ [(inner, bool_decide (inner = []), bool_decide (inner ≠ []))], b).
Proof.
  intros Hm Hst. unfold inline_step. rewrite Hm.
  destruct inner as [|c inner]; [done|].
  apply not_elem_of_cons in Hst as [Hc _].
  assert (Py.startswith (lit "**")
            ([ch_star] ++ (c :: inner) ++ [ch_star]) = false) as ->.
  { destruct (Py.startswith _ _) eqn:Hp; [|done].
    apply startswith_prefix in Hp as [r Hr]. simplify_eq/=. }
  rewrite (proj2 (startswith_prefix (lit "*") _)) by (by eexists).
  rewrite (proj2 (endswith_suffix (lit "*") _))
    by (exists ([ch_star] ++ c :: inner); by rewrite <- app_assoc).
  simpl andb. cbv iota.
  pose proof (slice_neg_middle [ch_star] (c :: inner) [ch_star]) as Hs.
  cbn [length] in Hs. rewrite Hs.
  rewrite (bool_decide_eq_false_2 (c :: inner = [])) by done.
  by rewrite (bool_decide_eq_true_2 (c :: inner ≠ [])) by done.
Qed.

Lemma slice_nonempty {A} (l : list A) cur a :
  cur < a ≤ length l → Py.slice cur a l ≠ [].
Proof.
  intros H Hnil. apply (f_equal length) in Hnil. unfold Py.slice in Hnil.
  rewrite length_take, length_drop in Hnil. simpl in Hnil. lia.
Qed.

Lemma bold_inner_nil : bold_inner [].
Proof. split; [apply not_elem_of_nil|done]. Qed.

(** The loop keeps the shape of the runs. *)
Lemma inline_loop_shapes text ms (parts : list run) cur :
  spans_from text cur ms →
  cur ≤ length text →
  Forall run_shape parts →
  ∀ parts' cur', foldl (inline_step text) (parts, cur) ms = (parts', cur') →
    cur' ≤ length text ∧ Forall run_shape parts'.
Proof.
  revert parts cur.
  induction ms as [|[a b] ms IH]; intros parts cur Hms Hcur Hparts.
  - simpl. by intros ?? [= <- <-].
  - destruct Hms as (Hca & Hab & Hspan & Hms). intros parts' cur' Hfold.
    cbn [foldl] in Hfold.
    assert (Forall run_shape
              (if bool_decide (cur < a)
               then parts ++ [(Py.slice cur a text, false, false)]
               else parts)) as Hgap.
    { case_bool_decide; [|done]. apply Forall_app. split; [done|].
      apply Forall_singleton. apply slice_nonempty. lia. }
    destruct Hspan as [(inner & Hm & Hin)|(inner & Hm & Hin)].
    + rewrite (inline_step_bold _ _ _ _ _ inner Hm) in Hfold.
      apply IH in Hfold; [done|done|lia|].
      apply Forall_app. split; [done|]. by apply Forall_singleton.
    + rewrite (inline_step_italic _ _ _ _ _ inner Hm (proj1 Hin)) in Hfold.
      apply IH in Hfold; [done|done|lia|].
      apply Forall_app. split; [done|]. apply Forall_singleton.
      unfold run_shape. simpl. destruct (decide (inner = [])) as [->|Hne].
      * apply bold_inner_nil.
      * rewrite (bool_decide_eq_false_2 (inner = [])) by done.
        by rewrite (bool_decide_eq_true_2 (inner ≠ [])) by done.
Qed.

Lemma parse_inline_markdown_shapes text :
  text ≠ [] → Forall run_shape (parse_inline_markdown text).
Proof.
  intros Htext. unfold parse_inline_markdown.
  destruct (foldl (inline_step text) ([], 0) (Re.finditer text))
    as [parts cur] eqn:Hfold.
  apply inline_loop_shapes in Hfold as [Hcur Hparts];
    [|apply (finditer_from_spans [] text 0); lia|lia|done].
  assert (Forall run_shape
            (if bool_decide (cur < length text)
             then parts ++ [(Py.slice_from cur text, false, false)]
             else parts)) as Hall.
  { case_bool_decide as Hlt; [|done]. apply Forall_app. split; [done|].
    apply Forall_singleton. change (drop cur text ≠ []).
    intros Hnil. apply (f_equal length) in Hnil.
    rewrite length_drop in Hnil. simpl in Hnil. lia. }
  destruct (if bool_decide (cur < length text) then _ else parts);
    [|done].
  by apply Forall_singleton.
Qed.

Lemma parse_inline_markdown_nil :
  parse_inline_markdown [] = [([], false, false)].
Proof. reflexivity. Qed.

Lemma bold_inner_text (t : str) :
  bold_inner t →
  (ch_newline ∉ t)
  ∧ Py.contains (lit "**") t = false
  ∧ last t ≠ Some ch_star.
Proof.
  intros [Hnl Hno]. split; [done|].
  change (lit "**") with [ch_star; ch_star] in *.
  induction t as [|c t IH]; [done|].
  apply not_elem_of_cons in Hnl as [_ Hnl].
  destruct (contains_cons_false [ch_star; ch_star] c (t ++ [ch_star]) Hno)
    as [Hhere Hno'].
  destruct (IH Hnl Hno') as [IH1 IH2].
  cbn [Py.contains]. rewrite IH1, orb_false_r. split.
  - destruct (Py.startswith [ch_star; ch_star] (c :: t)) eqn:Hst; [|done].
    apply startswith_prefix in Hst as [r Hr].
    assert (Py.startswith [ch_star; ch_star] (c :: t ++ [ch_star]) = true)
      as Hst'; [|congruence].
    apply startswith_prefix. exists (r ++ [ch_star]).
    by rewrite app_comm_cons, Hr.
  - destruct t as [|d t]; [|done].
    simpl. intros [= ->]. by vm_compute in Hhere.
Qed.

Lemma parse_inline_markdown_nonempty (text : str) :
  parse_inline_markdown text ≠ [].
Proof.
  unfold parse_inline_markdown.
  destruct (foldl _ _ _) as [parts cur].
  by destruct (if bool_decide (cur < length text) then _ else parts).
Qed.

End spans.

(** X1. The tokenizer never returns an empty list, and no run it returns
    is both bold and italic. *)
Theorem parse_inline_markdown_styles (text : str) :
  parse_inline_markdown text ≠ []
  ∧ Forall (λ r, ¬ (run_bold r = true ∧ run_italic r = true))
      (parse_inline_markdown text).
Proof.
  split; [apply parse_inline_markdown_nonempty|].
  destruct (decide (text = [])) as [->|Htext].
  - apply Forall_singleton. by intros [? ?].
  - 
eapply Forall_impl; [by apply parse_inline_markdown_shapes|].
    intros [[t b] i]. unfold run_shape, run_bold, run_italic. simpl.
    intros Hshape [-> ->]. done.
Qed.

(** X2. For a line that is not empty, no plain run (neither bold nor
    italic) has an empty text. *)
Theorem parse_inline_markdown_plain_runs (text : str) (r : run) :
  text ≠ [] →
  r ∈ parse_inline_markdown text →
  run_bold r = false → run_italic r = false →
  run_text r ≠ [].
Proof.
  intros Htext Hr Hb Hi.
  pose proof (parse_inline_markdown_shapes text Htext) as Hall.
  rewrite Forall_forall in Hall. specialize (Hall r Hr).
  unfold run_shape in Hall. by rewrite Hb, Hi in Hall.
Qed.

Lemma parse_inline_markdown_plain_runs_witness :
  run_text (lit " and ", false, false) ≠ [].
Proof.
  apply (parse_inline_markdown_plain_runs (lit "**a** and *b*")
           (lit " and ", false, false)).
  - done.
  - by apply (bool_decide_unpack _).
  - reflexivity.
  - reflexivity.
Defined.

(** X3. An italic run is never empty and contains neither an asterisk nor
    a newline; in particular the empty span [**] is not italic. *)
Theorem parse_inline_markdown_italic_runs (text : str) (r : run) :
  r ∈ parse_inline_markdown text →
  run_italic r = true →
  run_text r ≠ [] ∧ (ch_star ∉ run_text r) ∧ (ch_newline ∉ run_text r).
Proof.
  intros Hr Hi. destruct (decide (text = [])) as [->|Htext].
  { apply list_elem_of_singleton in Hr as ->. done. }
  pose proof (parse_inline_markdown_shapes text Htext) as Hall.
  rewrite Forall_forall in Hall. specialize (Hall r Hr).
  unfold run_shape in Hall. rewrite Hi in Hall.
  destruct (run_bold r); [done|]. by destruct Hall as (? & ? & ?).
Qed.

Lemma parse_inline_markdown_italic_runs_witness :
  run_text (lit "b", false, true) ≠ []
  ∧ (ch_star ∉ run_text (lit "b", false, true))
  ∧ (ch_newline ∉ run_text (lit "b", false, true)).
Proof.
  apply (parse_inline_markdown_italic_runs (lit "**a** and *b*")
           (lit "b", false, true)).
  - by apply (bool_decide_unpack _).
  - reflexivity.
Defined.

(** X4. A bold run contains no newline and no two asterisks in a row, and
    does not end with an asterisk. *)
Theorem parse_inline_markdown_bold_runs (text : str) (r : run) :
  r ∈ parse_inline_markdown text →
  run_bold r = true →
  (ch_newline ∉ run_text r)
  ∧ Py.contains (lit "**") (run_text r) = false
  ∧ last (run_text r) ≠ Some ch_star.
Proof.
  intros Hr Hb. destruct (decide (text = [])) as [->|Htext].
  { apply list_elem_of_singleton in Hr as ->. done. }
  pose proof (parse_inline_markdown_shapes text Htext) as Hall.
  rewrite Forall_forall in Hall. specialize (Hall r Hr).
  unfold run_shape in Hall. rewrite Hb in Hall.
  destruct (run_italic r); [done|]. by apply bold_inner_text.
Qed.

Lemma parse_inline_markdown_bold_runs_witness :
  (ch_newline ∉ run_text (lit "a*b", true, false))
  ∧ Py.contains (lit "**") (run_text (lit "a*b", true, false)) = false
  ∧ last (run_text (lit "a*b", true, false)) ≠ Some ch_star.
Proof.
  apply (parse_inline_markdown_bold_runs (lit "x **a*b** y")
           (lit "a*b", true, false)).
  - by apply (bool_decide_unpack _).
  - reflexivity.
Defined.

(** ** One span in plain text *)

Section one_span.

Implicit Types (s text inner pre post m : str).

Lemma match_here_not_star (c : N) s :
  c ≠ ch_star → Re.match_here (c :: s) = None.
Proof.
  intros Hc. unfold Re.match_here. simpl.
  by rewrite (bool_decide_eq_false_2 (ch_star = c)) by done.
Qed.

Lemma finditer_from_plain_prefix pre s pos :
  ch_star ∉ pre →
  Re.finditer_from 0 pos (pre ++ s)
  = Re.finditer_from 0 (pos + length pre) s.
Proof.
  revert pos. induction pre as [|c pre IH]; intros pos Hpre; simpl.
  - by rewrite Nat.add_0_r.
  - apply not_elem_of_cons in Hpre as [Hc Hpre].
    rewrite match_here_not_star by done. rewrite IH by done.
    f_equal. lia.
Qed.

Lemma finditer_from_skip s1 s2 pos :
  Re.finditer_from (length s1) pos (s1 ++ s2)
  = Re.finditer_from 0 (pos + length s1) s2.
Proof.
  revert pos. induction s1 as [|c s1 IH]; intros pos; simpl.
  - by rewrite Nat.add_0_r.
  - rewrite IH. f_equal. lia.
Qed.

Lemma finditer_single pre m post :
  ch_star ∉ pre →
  Re.match_here (m ++ post) = Some (length m) →
  ch_star ∉ post →
  Re.finditer (pre ++ m ++ post) = [(length pre, length pre + length m)].
Proof.
  intros Hpre Hm Hpost. unfold Re.finditer.
  rewrite finditer_from_plain_prefix by done. simpl.
  pose proof (match_here_Some _ _ Hm) as [[Hlen _] _].
  destruct m as [|c m]; [simpl in Hlen; lia|].
  cbn [app Re.finditer_from] in *. rewrite Hm. f_equal.
  cbn [length]. replace (S (length m) - 1) with (length m) by lia.
  rewrite finditer_from_skip. by apply finditer_from_no_star.
Qed.

Lemma match_here_bold inner post :
  bold_inner inner →
  Re.match_here (([ch_star; ch_star] ++ inner ++ [ch_star; ch_star]) ++ post)
  = Some (length ([ch_star; ch_star] ++ inner ++ [ch_star; ch_star])).
Proof.
  intros Hin. unfold Re.match_here. simpl. rewrite drop_0.
  rewrite <- app_assoc. simpl.
  rewrite lazy_to_star2_app by done. simpl.
  rewrite length_app. simpl. f_equal. lia.
Qed.

Lemma match_here_italic inner post :
  italic_inner inner → ch_star ∉ post →
  Re.match_here (([ch_star] ++ inner ++ [ch_star]) ++ post)
  = Some (length ([ch_star] ++ inner ++ [ch_star])).
Proof.
  intros Hin Hpost. unfold Re.match_here.
  assert ((if Py.startswith [ch_star; ch_star]
                (([ch_star] ++ inner ++ [ch_star]) ++ post)
           then (λ k, k + 4)
                <$> Re.lazy_to_star2
                      (drop 2 (([ch_star] ++ inner ++ [ch_star]) ++ post))
           else None) = None) as ->.
  { destruct inner as [|c inner].
    - simpl. rewrite drop_0. by rewrite lazy_to_star2_no_star.
    - destruct Hin as [[Hc _]%not_elem_of_cons _]. simpl.
      by rewrite (bool_decide_eq_false_2 (ch_star = c)) by done. }
  simpl. rewrite drop_0, <- app_assoc. simpl.
  rewrite lazy_to_star_app by done. simpl.
  rewrite length_app. simpl. f_equal. lia.
Qed.

(** The result for a text with exactly one match. *)
Lemma parse_inline_markdown_one_match pre m post (r : run) :
  Re.finditer (pre ++ m ++ post) = [(length pre, length pre + length m)] →
  (∀ parts cur,
     inline_step (pre ++ m ++ post) (parts, cur)
       (length pre, length pre + length m)
     = ((if bool_decide (cur < length pre)
         then parts
              ++ [(Py.slice cur (length pre) (pre ++ m ++ post),
                   false, false)]
         else parts) ++ [r], length pre + length m)) →
  parse_inline_markdown (pre ++ m ++ post) = plain pre ++ [r] ++ plain post.
Proof.
  intros Hfind Hstep. unfold parse_inline_markdown.
  rewrite Hfind. cbn [foldl]. rewrite Hstep.
  assert (Py.slice 0 (length pre) (pre ++ m ++ post) = pre) as ->.
  { unfold Py.slice. rewrite drop_0, Nat.sub_0_r. apply take_app_length. }
  assert (Py.slice_from (length pre + length m) (pre ++ m ++ post) = post)
    as ->.
  { unfold Py.slice_from.
    by rewrite <- drop_drop, drop_app_length, drop_app_length. }
  rewrite !length_app. unfold plain.
  destruct pre as [|c pre], post as [|d post]; simpl;
    repeat case_bool_decide; simpl in *; try lia; try done.
Qed.

End one_span.

(** X5. A bold span in plain text: when [pre] and [post] contain no
    asterisk and [inner] is what a bold span can hold (no newline, no two
    asterisks in a row, no asterisk at its end), the line
    [pre**inner**post] gives the run of [pre] if it is not empty, the
    bold run [inner], and the run of [post] if it is not empty. *)
Theorem parse_inline_markdown_bold_span (pre inner post : str) :
  ch_star ∉ pre → bold_inner inner → ch_star ∉ post →
  parse_inline_markdown (pre ++ lit "**" ++ inner ++ lit "**" ++ post)
  = plain pre ++ [(inner, true, false)] ++ plain post.
Proof.
  intros Hpre Hin Hpost.
  change (lit "**") with [ch_star; ch_star].
  replace (pre ++ [ch_star; ch_star] ++ inner ++ [ch_star; ch_star] ++ post)
    with (pre ++ ([ch_star; ch_star] ++ inner ++ [ch_star; ch_star]) ++ post)
    by (by rewrite <- !app_assoc).
  apply parse_inline_markdown_one_match.
  - apply finditer_single; [done| |done]. by apply match_here_bold.
  - intros parts cur. apply inline_step_bold.
    unfold Py.slice. rewrite drop_app_length.
    replace (length pre + _ - length pre)
      with (length ([ch_star; ch_star] ++ inner ++ [ch_star; ch_star]))
      by lia.
    apply take_app_length.
Qed.

Lemma parse_inline_markdown_bold_span_witness :
  parse_inline_markdown
    (lit "Total: " ++ lit "**" ++ lit "12 * 3" ++ lit "**" ++ lit " items")
  = plain (lit "Total: ") ++ [(lit "12 * 3", true, false)]
    ++ plain (lit " items").
Proof.
  apply (parse_inline_markdown_bold_span (lit "Total: ") (lit "12 * 3")
           (lit " items")).
  - by apply (bool_decide_unpack _).
  - split; [by apply (bool_decide_unpack _)|reflexivity].
  - by apply (bool_decide_unpack _).
Defined.

(** X6. An italic span in plain text: when [pre], [inner] and [post]
    contain no asterisk and [inner] no newline, the line [pre*inner*post]
    gives the run of [pre] if it is not empty, the run [inner], and the
    run of [post] if it is not empty; the run [inner] is italic, except
    that the empty span [**] is reported as an empty bold run. *)
Theorem parse_inline_markdown_italic_span (pre inner post : str) :
  ch_star ∉ pre → italic_inner inner → ch_star ∉ post →
  parse_inline_markdown (pre ++ lit "*" ++ inner ++ lit "*" ++ post)
  = plain pre
    ++ [(inner, bool_decide (inner = []), bool_decide (inner ≠ []))]
    ++ plain post.
Proof.
  intros Hpre Hin Hpost.
  change (lit "*") with [ch_star].
  replace (pre ++ [ch_star] ++ inner ++ [ch_star] ++ post)
    with (pre ++ ([ch_star] ++ inner ++ [ch_star]) ++ post)
    by (by rewrite <- !app_assoc).
  apply parse_inline_markdown_one_match.
  - apply finditer_single; [done| |done]. by apply match_here_italic.
  - intros parts cur. apply inline_step_italic; [|by destruct Hin].
    unfold Py.slice. rewrite drop_app_length.
    replace (length pre + _ - length pre)
      with (length ([ch_star] ++ inner ++ [ch_star])) by lia.
    apply take_app_length.
Qed.

Lemma parse_inline_markdown_italic_span_witness :
  parse_inline_markdown
    (lit "see " ++ lit "*" ++ lit "Table 5" ++ lit "*" ++ lit ".")
  = plain (lit "see ")
    ++ [(lit "Table 5", bool_decide (lit "Table 5" = []),
         bool_decide (lit "Table 5" ≠ []))]
    ++ plain (lit ".").
Proof.
  apply (parse_inline_markdown_italic_span (lit "see ") (lit "Table 5")
           (lit ".")).
  - by apply (bool_decide_unpack _).
  - split; by apply (bool_decide_unpack _).
  - by apply (bool_decide_unpack _).
Defined.

(** ** Rows and cells *)

Section rows.

Implicit Types (s f line : str) (cells : list str).

Lemma split_no_sep (sep : N) s : sep ∉ s → Py.split sep s = [s].
Proof.
  induction s as [|c s IH]; [done|]. intros [Hc Hs]%not_elem_of_cons.
  simpl. rewrite bool_decide_eq_false_2 by done. by rewrite IH.
Qed.

Lemma split_app_sep (sep : N) f s :
  sep ∉ f → Py.split sep (f ++ sep :: s) = f :: Py.split sep s.
Proof.
  induction f as [|c f IH]; simpl.
  - intros _. by rewrite bool_decide_eq_true_2.
  - intros [Hc Hf]%not_elem_of_cons.
    rewrite bool_decide_eq_false_2 by done. by rewrite IH.
Qed.

Lemma split_fields (sep : N) f cells f' :
  sep ∉ f → Forall (λ c, sep ∉ c) cells → sep ∉ f' →
  Py.split sep (f ++ concat ((λ c, sep :: c) <$> cells) ++ sep :: f')
  = f :: cells ++ [f'].
Proof.
  intros Hf Hcells Hf'. revert f Hf.
  induction Hcells as [|c cells Hc _ IH]; intros f Hf; simpl.
  - by rewrite split_app_sep, split_no_sep.
  - rewrite <- app_assoc. rewrite split_app_sep by done. by rewrite IH.
Qed.

Lemma split_length (sep : N) s :
  length (Py.split sep s) = S (length (filter (λ c, c = sep) s)).
Proof.
  induction s as [|c s IH]; [done|]. simpl. case_bool_decide as Hc.
  - rewrite filter_cons_True by done. simpl. by rewrite IH.
  - rewrite filter_cons_False by done.
    destruct (Py.split sep s); simpl in *; [done|]. lia.
Qed.

Lemma split_no_sep_inside (sep : N) s :
  Forall (λ f, sep ∉ f) (Py.split sep s).
Proof.
  induction s as [|c s IH]; simpl.
  - apply Forall_singleton, not_elem_of_nil.
  - case_bool_decide as Hc.
    + constructor; [apply not_elem_of_nil|done].
    + destruct (Py.split sep s) as [|f fs]; simpl.
      * apply Forall_singleton. apply not_elem_of_cons.
        split; [by intros ->|apply not_elem_of_nil].
      * inversion IH as [|?? Hf Hfs]; subst. constructor; [|done].
        apply not_elem_of_cons. split; [by intros ->|done].
Qed.

Lemma lstrip_suffix s : Py.lstrip s `suffix_of` s.
Proof.
  induction s as [|c s IH]; [done|]. simpl.
  destruct (Py.isspace c); [by apply suffix_cons_r|done].
Qed.

Lemma lstrip_head s (x : N) :
  head (Py.lstrip s) = Some x → Py.isspace x = false.
Proof.
  induction s as [|c s IH]; [done|]. simpl.
  destruct (Py.isspace c) eqn:Hc; [done|]. simpl. by intros [= <-].
Qed.

Lemma rstrip_last s (x : N) :
  last (Py.rstrip s) = Some x → Py.isspace x = false.
Proof.
  induction s as [|c s IH]; [done|]. simpl.
  destruct (Py.rstrip s) as [|d r] eqn:Hr.
  - destruct (Py.isspace c) eqn:Hc; [done|]. simpl. by intros [= <-].
  - intros Hl. apply IH. by rewrite <- Hl.
Qed.

Lemma rstrip_head s (x : N) :
  head (Py.rstrip s) = Some x → head s = Some x.
Proof.
  destruct (rstrip_prefix s) as [k Hk]. rewrite Hk at 2.
  by destruct (Py.rstrip s).
Qed.

(** A stripped string has no whitespace at either end and only characters
    of the original. *)
Lemma strip_ends s :
  (∀ x, head (Py.strip s) = Some x → Py.isspace x = false)
  ∧ (∀ x, last (Py.strip s) = Some x → Py.isspace x = false)
  ∧ (∀ x, x ∈ Py.strip s → x ∈ s).
Proof.
  unfold Py.strip. split_and!.
  - intros x Hx. by apply rstrip_head, lstrip_head in Hx.
  - intros x Hx. by apply rstrip_last in Hx.
  - intros x Hx. destruct (rstrip_prefix (Py.lstrip s)) as [k Hk].
    destruct (lstrip_suffix s) as [k' Hk']. rewrite Hk', Hk.
    apply elem_of_app. right. apply elem_of_app. by left.
Qed.

Lemma slice_neg_subseteq {A} lo k (l : list A) x :
  x ∈ Py.slice_neg lo k l → x ∈ l.
Proof.
  unfold Py.slice_neg, Py.slice. intros Hx.
  apply elem_of_take in Hx as (i & Hx & _).
  rewrite lookup_drop in Hx. by eapply list_elem_of_lookup_2.
Qed.

Lemma slice_neg_length {A} lo k (l : list A) :
  length (Py.slice_neg lo k l) = length l - k - lo.
Proof.
  unfold Py.slice_neg, Py.slice. rewrite length_take, length_drop. lia.
Qed.

End rows.

(** X7. The cells of a row are the fields between its first and its last
    pipe, each stripped; whatever stands before the first pipe or after
    the last one is dropped. *)
Theorem parse_row_cells (before after : str) (cells : list str) :
  ch_pipe ∉ before →
  Forall (λ c, ch_pipe ∉ c) cells →
  ch_pipe ∉ after →
  parse_row
    (before ++ concat ((λ c, ch_pipe :: c) <$> cells) ++ ch_pipe :: after)
  = Py.strip <$> cells.
Proof.
  intros Hb Hcells Ha. unfold parse_row. f_equal.
  rewrite split_fields by done.
  apply (slice_neg_middle [before] cells [after]).
Qed.

Lemma parse_row_cells_witness :
  parse_row
    (lit "  "
     ++ concat ((λ c, ch_pipe :: c) <$> [lit " Age "; lit ""; lit " 18-24 "])
     ++ ch_pipe :: lit " trailing note")
  = Py.strip <$> [lit " Age "; lit ""; lit " 18-24 "].
Proof.
  apply (parse_row_cells (lit "  ") (lit " trailing note")
           [lit " Age "; lit ""; lit " 18-24 "]).
  - by apply (bool_decide_unpack _).
  - repeat constructor; by apply (bool_decide_unpack _).
  - by apply (bool_decide_unpack _).
Defined.

(** X8. A row has one cell less than the line has pipes, and no cell at
    all when the line has fewer than two pipes. *)
Theorem parse_row_length (line : str) :
  length (parse_row line) = length (filter (λ c, c = ch_pipe) line) - 1.
Proof.
  unfold parse_row. rewrite length_fmap, slice_neg_length, split_length. lia.
Qed.

(** X9. No cell of a row contains a pipe, and no cell begins or ends with
    whitespace. *)
Theorem parse_row_stripped (line cell_text : str) :
  cell_text ∈ parse_row line →
  (ch_pipe ∉ cell_text)
  ∧ (∀ x, head cell_text = Some x → Py.isspace x = false)
  ∧ (∀ x, last cell_text = Some x → Py.isspace x = false).
Proof.
  unfold parse_row. intros (f & -> & Hf)%list_elem_of_fmap.
  apply slice_neg_subseteq in Hf.
  pose proof (split_no_sep_inside ch_pipe line) as Hall.
  rewrite Forall_forall in Hall. specialize (Hall f Hf).
  destruct (strip_ends f) as (Hhead & Hlast & Hsub).
  split_and!; [|done|done]. intros Hp. by apply Hall, Hsub.
Qed.

Lemma parse_row_stripped_witness :
  (ch_pipe ∉ lit "18 - 24")
  ∧ (∀ x, head (lit "18 - 24") = Some x → Py.isspace x = false)
  ∧ (∀ x, last (lit "18 - 24") = Some x → Py.isspace x = false).
Proof.
  apply (parse_row_stripped (line_of "| Age |   18 - 24  |") (lit "18 - 24")).
  by apply (bool_decide_unpack _).
Defined.

Section extent.

Implicit Types (rest lines : list str).

(** The collecting loop stops at the first line without a pipe and keeps
    the lines before it that are not separator lines. *)
Lemma collect_table_lines_spec rest idx :
  ∃ n, n ≤ length rest
     ∧ collect_table_lines rest idx []
       = (idx + n,
          filter (λ l, Py.startswith (lit "|---") (Py.strip l) = false)
            (take n rest))
     ∧ Forall (λ l, Py.contains_char ch_pipe l = true) (take n rest)
     ∧ ∀ l, rest !! n = Some l → Py.contains_char ch_pipe l = false.
Proof.
  revert idx. induction rest as [|l rest IH]; intros idx.
  - exists 0. simpl. by rewrite Nat.add_0_r.
  - cbn [collect_table_lines].
    destruct (Py.contains_char ch_pipe l) eqn:Hpipe.
    + destruct (IH (S idx)) as (n & Hn & Hrun & Hall & Hstop).
      exists (S n). rewrite collect_table_lines_acc, Hrun.
      cbn [fst snd take length].
      split_and!; [lia| |by constructor|done].
      replace (idx + S n) with (S idx + n) by lia. f_equal.
      destruct (Py.startswith (lit "|---") (Py.strip l)) eqn:Hsep;
        cbn [negb app].
      * by rewrite filter_cons_False by (by rewrite Hsep).
      * by rewrite filter_cons_True by done.
    + exists 0. cbn [take length]. rewrite Nat.add_0_r.
      split_and!; [lia|done|done|]. by intros ? [= <-].
Qed.

End extent.

(** X10. The table parser consumes the lines from [start_idx] up to the
    first line without a pipe (or the end of the file): every line it
    steps over contains a pipe, the line at the index it returns does
    not, and the lines it keeps are, in order, those stepped over whose
    trimmed form does not start with [|---]. *)
Theorem table_lines_extent (lines : list str) (start_idx : nat) :
  start_idx ≤ table_end_at lines start_idx
  ∧ (∀ k, start_idx ≤ k < table_end_at lines start_idx →
       ∃ l, lines !! k = Some l ∧ Py.contains_char ch_pipe l = true)
  ∧ (∀ l, lines !! table_end_at lines start_idx = Some l →
       Py.contains_char ch_pipe l = false)
  ∧ table_lines_at lines start_idx
    = filter (λ l, Py.startswith (lit "|---") (Py.strip l) = false)
        (take (table_end_at lines start_idx - start_idx)
           (drop start_idx lines)).
Proof.
  unfold table_end_at, table_lines_at.
  destruct (collect_table_lines_spec (drop start_idx lines) start_idx)
    as (n & Hn & -> & Hall & Hstop).
  cbn [fst snd]. replace (start_idx + n - start_idx) with n by lia.
  split_and!; [lia| | |done].
  - intros k Hk.
    destruct (take n (drop start_idx lines) !! (k - start_idx))
      as [l|] eqn:Hl.
    + exists l. rewrite Forall_lookup in Hall. split; [|by eapply Hall].
      apply lookup_take_Some in Hl as [Hl _]. rewrite lookup_drop in Hl.
      by replace (start_idx + (k - start_idx)) with k in Hl by lia.
    + apply lookup_ge_None in Hl. rewrite length_take in Hl. lia.
  - intros l Hl. apply Hstop. by rewrite lookup_drop.
Qed.

(** X11. In the table of a block, whatever its texts and its row
    lengths, a cell with the header formatting is a cell of row 0; and
    when python-docx stores the texts of the header row, every cell of
    row 0 has the header formatting. *)
Theorem table_header_row (doc : document) (lines : list str)
    (start_idx : nat) (header : list str) (data : list (list str)) :
  table_rows_at lines start_idx = header :: data →
  ∃ grid tail res,
    add_table_from_markdown doc lines start_idx
    = (doc ++ Table grid :: tail, res)
    ∧ (∀ r cells c, grid !! r = Some cells → c ∈ cells →
         cell_header c = true → r = 0)
    ∧ (all_storable header →
       ∀ cells c, grid !! 0 = Some cells → c ∈ cells →
         cell_header c = true).
Proof.
  intros Hrows.
  pose proof (add_table_from_markdown_rows doc _ _ _ _ Hrows) as Hadd.
  pose proof (fill_table_header_first
                (new_table (S (length data)) (length header)) 0
                (header :: data)) as Hfirst.
  pose proof (fill_table_header (length data) header data) as Hhead.
  destruct (fill_table _ 0 (header :: data)) as [grid res].
  exists grid,
    (match res with Ok _ => [Paragraph []] | Raise _ => [] end),
    (match res with
     | Ok _ => Ok (table_end_at lines start_idx)
     | Raise e => Raise e
     end).
  split; [rewrite Hadd; by destruct res|]. split.
  - intros r cells c Hr [k Hk]%list_elem_of_lookup_1 Hc.
    refine (Hfirst _ r cells k c Hr Hk Hc).
    intros r' row k' c' Hr' Hk' Hc'.
    apply lookup_replicate in Hr' as [-> _].
    apply lookup_replicate in Hk' as [-> _]. done.
  - intros Hst cells c Hcells Hc. specialize (Hhead Hst). simpl in Hhead.
    assert (cells = written_cell 0 <$> header) as -> by congruence.
    by apply list_elem_of_fmap in Hc as (t & -> & _).
Qed.

Lemma table_header_row_witness :
  ∃ grid tail res,
    add_table_from_markdown []
      [line_of "| A | B |"; line_of "|---|---|"; line_of "| 1 |"] 0
    = ([] ++ Table grid :: tail, res)
    ∧ (∀ r cells c, grid !! r = Some cells → c ∈ cells →
         cell_header c = true → r = 0)
    ∧ (all_storable [lit "A"; lit "B"] →
       ∀ cells c, grid !! 0 = Some cells → c ∈ cells →
         cell_header c = true).
Proof.
  apply (table_header_row []
           [line_of "| A | B |"; line_of "|---|---|"; line_of "| 1 |"] 0
           [lit "A"; lit "B"] [[lit "1"]]).
  reflexivity.
Defined.

(** X12. When a data row has more cells than the header, and python-docx
    stores the texts written up to there, the table that stays in the
    document has the rows before that row filled as usual, that row cut
    to the header's width, and every later row empty; the spacer
    paragraph is not added and [IndexError] is raised. *)
Theorem add_table_from_markdown_overflow_table (doc : document)
    (lines : list str) (start_idx : nat) (header : list str)
    (good : list (list str)) (bad : list str) (rest : list (list str)) :
  table_rows_at lines start_idx = header :: good ++ bad :: rest →
  Forall (λ row_data, length row_data ≤ length header) good →
  length header < length bad →
  Forall (λ row_data, all_storable row_data) (header :: good) →
  all_storable (take (length header) bad) →
  add_table_from_markdown doc lines start_idx
  = (doc
     ++ [Table
           (imap (filled_row (length header)) (header :: good)
            ++ (written_cell (S (length good))
                <$> take (length header) bad)
            :: replicate (length rest)
                 (replicate (length header) empty_cell))],
     Raise IndexError).
Proof.
  intros Hrows Hgood Hbad Hst Hst'.
  assert (Forall (λ row_data, length row_data ≤ length header)
            (header :: good)) as Hfit by (by constructor).
  pose proof (fill_table_overflow [] (length header) (header :: good)
                bad rest Hfit Hbad Hst Hst') as Hfill.
  cbn [app length Nat.add] in Hfill.
  rewrite (add_table_from_markdown_rows _ _ _ _ _ Hrows). unfold new_table.
  replace (S (length (good ++ bad :: rest)))
    with (length (header :: good ++ bad :: rest)) by done.
  cbn [length]. by rewrite Hfill.
Qed.

Lemma add_table_from_markdown_overflow_table_witness :
  add_table_from_markdown []
    [line_of "| A | B |"; line_of "|---|---|"; line_of "| 1 | 2 |";
     line_of "| 3 | 4 | 5 |"; line_of "| 6 | 7 |"] 0
  = ([]
     ++ [Table
           (imap (filled_row (length [lit "A"; lit "B"]))
              ([lit "A"; lit "B"] :: [[lit "1"; lit "2"]])
            ++ (written_cell (S (length [[lit "1"; lit "2"]]))
                <$> take (length [lit "A"; lit "B"])
                      [lit "3"; lit "4"; lit "5"])
            :: replicate (length [[lit "6"; lit "7"]])
                 (replicate (length [lit "A"; lit "B"]) empty_cell))],
     Raise IndexError).
Proof.
  apply (add_table_from_markdown_overflow_table []
           [line_of "| A | B |"; line_of "|---|---|"; line_of "| 1 | 2 |";
            line_of "| 3 | 4 | 5 |"; line_of "| 6 | 7 |"] 0
           [lit "A"; lit "B"] [[lit "1"; lit "2"]]
           [lit "3"; lit "4"; lit "5"] [[lit "6"; lit "7"]]).
  - reflexivity.
  - repeat constructor.
  - simpl. lia.
  - by repeat constructor.
  - reflexivity.
Defined.

(** ** The blocks of a file *)

Section whole_file.

Implicit Types (doc : document) (lines : list str).

Lemma table_start_no_pipe lines i (raw : str) :
  ch_pipe ∉ raw → table_start lines i (Py.rstrip raw) = false.
Proof.
  intros Hraw. unfold table_start.
  destruct (Py.contains_char ch_pipe (Py.rstrip raw)) eqn:Hp; [|done].
  apply contains_char_elem in Hp. destruct Hraw.
  destruct (rstrip_prefix raw) as [k Hk]. rewrite Hk.
  apply elem_of_app. by left.
Qed.

(** Every block that the loop appends satisfies what the blocks of each
    iteration satisfy. *)
Lemma process_loop_blocks (P : block → Prop) fuel lines i doc doc' r :
  (∀ i raw, lines !! i = Some raw →
     match loop_body lines i raw [] with
     | Next _ d | Raised d _ => Forall P d
     end) →
  process_loop fuel lines i doc = Some (doc', r) →
  Forall P doc → Forall P doc'.
Proof.
  intros Hbody. revert i doc.
  induction fuel as [|fuel IH]; intros i doc; [done|].
  simpl. destruct (lines !! i) as [raw|] eqn:Hraw; [|by intros [= <- _]].
  specialize (Hbody i raw Hraw). rewrite loop_body_frame.
  destruct (loop_body lines i raw []) as [i' d|d e]; simpl.
  - intros Hrun Hdoc. eapply IH; [done|]. by apply Forall_app.
  - intros [= <- _] Hdoc. by apply Forall_app.
Qed.

Lemma fill_row_rectangular (table : list (list cell)) cols i j row_data :
  Forall (λ row, length row = cols) table →
  Forall (λ row, length row = cols) (fill_row table i j row_data).1.
Proof.
  revert table j. induction row_data as [|c row_data IH]; intros table j.
  - done.
  - intros Htable. simpl.
    destruct (table !! i) as [row|] eqn:Hrow; [|done].
    destruct (row !! j); [|done].
    assert (∀ c', Forall (λ row, length row = cols)
                    (<[i := <[j := c']> row]> table)) as Hins.
    { intros c'. apply Forall_insert; [done|]. rewrite length_insert.
      rewrite Forall_lookup in Htable. by eapply Htable. }
    destruct (Docx.set_text c) as [w [[]|e]]; simpl; [apply IH|]; apply Hins.
Qed.

Lemma fill_table_rectangular (table : list (list cell)) cols i rows :
  Forall (λ row, length row = cols) table →
  Forall (λ row, length row = cols) (fill_table table i rows).1.
Proof.
  revert table i. induction rows as [|row_data rows IH]; intros table i.
  - done.
  - intros Htable. simpl.
    pose proof (fill_row_rectangular table cols i 0 row_data Htable) as Hrow.
    destruct (fill_row table i 0 row_data) as [table' [[]|e]]; simpl in *.
    + by apply IH.
    + done.
Qed.

(** The blocks of one iteration. *)
Lemma loop_body_blocks lines i (raw : str) :
  match loop_body lines i raw [] with
  | Next _ d | Raised d _ =>
      Forall (λ b, match b with
                   | Heading _ level => 1 ≤ level ≤ 4
                   | Paragraph _ => True
                   | Table grid => rectangular grid
                   | PageBreak => False
                   end) d
  end.
Proof.
  assert (match add_table_from_markdown [] lines i with
          | (d, _) =>
              Forall (λ b, match b with
                           | Heading _ level => 1 ≤ level ≤ 4
                           | Paragraph _ => True
                           | Table grid => rectangular grid
                           | PageBreak => False
                           end) d
          end) as Htab.
  { unfold add_table_from_markdown.
    destruct (collect_table_lines _ _ _) as [idx table_lines].
    destruct table_lines as [|l table_lines]; [done|].
    set (rows := parse_row <$> l :: table_lines).
    pose proof (fill_table_length
                  (new_table (length rows) (length (default [] (head rows))))
                  0 rows) as Hlen.
    pose proof (fill_table_rectangular
                  (new_table (length rows) (length (default [] (head rows))))
                  (length (default [] (head rows))) 0 rows) as Hrect.
    unfold new_table in Hlen at 2. rewrite length_replicate in Hlen.
    assert (rectangular
              (fill_table
                 (new_table (length rows)
                    (length (default [] (head rows)))) 0 rows).1) as Hgrid.
    { split.
      - intros Hnil. by rewrite Hnil in Hlen.
      - eexists. apply Hrect. unfold new_table.
        apply Forall_replicate. by rewrite length_replicate. }
    destruct (fill_table _ _ _) as [grid [[]|e]]; simpl in *;
      repeat (apply Forall_cons_2; [done|]); apply Forall_nil_2. }
  unfold loop_body, after_call, add_heading, add_paragraph.
  destruct (add_table_from_markdown [] lines i) as [d [idx|e]].
  all: repeat match goal with
              | |- context [if ?b then _ else _] => destruct b eqn:?
              end; simpl; try done.
  all: repeat match goal with
              | |- context [Docx.set_text ?t] =>
                  destruct (Docx.set_text t) as [? [[]|?]]
              | |- context [add_runs ?p ?b ?c ?r] =>
                  destruct (add_runs p b c r) as [? [[]|?]]
              end; simpl;
    repeat (apply Forall_cons_2; [first [done|lia]|]);
    apply Forall_nil_2.
Qed.

End whole_file.

(** X15. Every heading that the converter emits has a level from 1 to
    4. *)
Theorem process_lines_heading_levels (lines : list str) (ops : document)
    (r : result unit) (text : str) (level : nat) :
  process_lines [] lines = Some (ops, r) →
  Heading text level ∈ ops →
  1 ≤ level ≤ 4.
Proof.
  intros Hrun Hin.
  eapply process_loop_blocks in Hrun;
    [|intros i raw _; apply loop_body_blocks|done].
  rewrite Forall_forall in Hrun. by apply Hrun in Hin.
Qed.

Lemma process_lines_heading_levels_witness : 1 ≤ 3 ≤ 4.
Proof.
  apply (process_lines_heading_levels
           [line_of "### 5.1 Results"; line_of "##### not a heading"]
           [Heading (lit "5.1 Results") 3;
            Paragraph [(lit "##### not a heading", false, false)]]
           (Ok ()) (lit "5.1 Results") 3).
  - reflexivity.
  - by left.
Defined.

(** X16. Every table that the converter puts into the document, also one
    whose fill raised, has at least one row, and all its rows have the
    same number of cells. *)
Theorem process_lines_tables_rectangular (lines : list str)
    (ops : document) (r : result unit) (grid : list (list cell)) :
  process_lines [] lines = Some (ops, r) →
  Table grid ∈ ops →
  rectangular grid.
Proof.
  intros Hrun Hin.
  eapply process_loop_blocks in Hrun;
    [|intros i raw _; apply loop_body_blocks|done].
  rewrite Forall_forall in Hrun. by apply Hrun in Hin.
Qed.

Lemma process_lines_tables_rectangular_witness :
  rectangular
    [[ {| cell_text := lit "A"; cell_header := true |} ];
     [ {| cell_text := lit "1"; cell_header := false |} ]].
Proof.
  apply (process_lines_tables_rectangular
           [line_of "| A |"; line_of "|---|"; line_of "| 1 | 2 |"]
           [Table [[ {| cell_text := lit "A"; cell_header := true |} ];
                   [ {| cell_text := lit "1"; cell_header := false |} ]]]
           (Raise IndexError)).
  - reflexivity.
  - by left.
Defined.

(** ** Files put one after the other *)

Section concatenation.

Implicit Types (doc : document) (lines rest : list str).

Lemma collect_table_lines_shift rest n idx (acc : list str) :
  collect_table_lines rest (n + idx) acc
  = (n + (collect_table_lines rest idx acc).1,
     (collect_table_lines rest idx acc).2).
Proof.
  revert idx acc. induction rest as [|l rest IH]; intros idx acc; simpl.
  - done.
  - destruct (Py.contains_char ch_pipe l); [|done].
    replace (S (n + idx)) with (n + S idx) by lia. apply IH.
Qed.

Lemma collect_table_lines_app_stop rest rest' idx (acc : list str) :
  (∃ l, last rest = Some l ∧ ch_pipe ∉ l) →
  collect_table_lines (rest ++ rest') idx acc
  = collect_table_lines rest idx acc.
Proof.
  intros (l & Hlast & Hl). revert idx acc.
  induction rest as [|l0 rest IH]; intros idx acc; [done|].
  simpl. destruct (Py.contains_char ch_pipe l0) eqn:Hp; [|done].
  destruct rest as [|l1 rest].
  - simpl in Hlast. injection Hlast as ->.
    apply contains_char_elem in Hp. done.
  - apply IH. by rewrite last_cons_cons in Hlast.
Qed.

Lemma last_drop_lt {A} (l : list A) i :
  i < length l → last (drop i l) = last l.
Proof.
  intros Hi. rewrite !last_lookup, lookup_drop, length_drop. f_equal. lia.
Qed.

Lemma add_table_from_markdown_app_l doc (l1 l2 : list str) i :
  i < length l1 →
  (∀ l, last l1 = Some l → ch_pipe ∉ l) →
  add_table_from_markdown doc (l1 ++ l2) i
  = add_table_from_markdown doc l1 i.
Proof.
  intros Hi Hlast. unfold add_table_from_markdown.
  rewrite drop_app_le by lia.
  rewrite collect_table_lines_app_stop; [done|].
  destruct (last l1) as [l|] eqn:Hl.
  - exists l. rewrite last_drop_lt by done. split; [done|by apply Hlast].
  - rewrite last_lookup in Hl. apply lookup_ge_None in Hl. lia.
Qed.

Lemma add_table_from_markdown_app_r doc (l1 l2 : list str) j :
  add_table_from_markdown doc (l1 ++ l2) (length l1 + j)
  = match add_table_from_markdown doc l2 j with
    | (d, Ok idx) => (d, Ok (length l1 + idx))
    | (d, Raise e) => (d, Raise e)
    end.
Proof.
  unfold add_table_from_markdown.
  rewrite drop_app_add, collect_table_lines_shift.
  destruct (collect_table_lines (drop j l2) j []) as [idx table_lines].
  cbn [fst snd]. destruct table_lines as [|l table_lines]; [done|].
  by destruct (fill_table _ _ _) as [? [[]|e]].
Qed.

Lemma table_start_app_l (l1 l2 : list str) i (raw : str) :
  l1 !! i = Some raw →
  (∀ l, last l1 = Some l → ch_pipe ∉ l) →
  table_start (l1 ++ l2) i (Py.rstrip raw)
  = table_start l1 i (Py.rstrip raw).
Proof.
  intros Hraw Hlast. unfold table_start.
  destruct (Py.contains_char ch_pipe (Py.rstrip raw)) eqn:Hp; [|done].
  simpl. apply lookup_lt_Some in Hraw as Hlt.
  destruct (decide (i + 1 < length l1)) as [Hi|Hi].
  - by rewrite lookup_app_l.
  - exfalso. assert (last l1 = Some raw) as Hl.
    { rewrite last_lookup. rewrite <- Hraw. f_equal. lia. }
    apply Hlast in Hl. destruct Hl.
    apply contains_char_elem in Hp.
    destruct (rstrip_prefix raw) as [k Hk]. rewrite Hk.
    apply elem_of_app. by left.
Qed.

Lemma table_start_app_r (l1 l2 : list str) j (line : str) :
  table_start (l1 ++ l2) (length l1 + j) line = table_start l2 j line.
Proof.
  unfold table_start.
  replace (length l1 + j + 1) with (length l1 + (j + 1)) by lia.
  by rewrite lookup_app_r, Nat.add_comm, Nat.add_sub by lia.
Qed.

(** Inside the first file, the second one is not seen. *)
Lemma loop_body_app_l (l1 l2 : list str) i (raw : str) doc :
  l1 !! i = Some raw →
  (∀ l, last l1 = Some l → ch_pipe ∉ l) →
  loop_body (l1 ++ l2) i raw doc = loop_body l1 i raw doc.
Proof.
  intros Hraw Hlast. unfold loop_body.
  rewrite table_start_app_l by done.
  rewrite add_table_from_markdown_app_l; [done| |done].
  by eapply lookup_lt_Some.
Qed.

(** Inside the second file, the loop runs as on that file alone, with
    every index moved by the length of the first. *)
Lemma loop_body_app_r (l1 l2 : list str) j (raw : str) doc :
  loop_body (l1 ++ l2) (length l1 + j) raw doc
  = shifted (length l1) (loop_body l2 j raw doc).
Proof.
  unfold loop_body.
  rewrite table_start_app_r, add_table_from_markdown_app_r.
  destruct (add_table_from_markdown doc l2 j) as [d [idx|e]].
  all: repeat match goal with
              | |- context [if ?b then _ else _] => destruct b eqn:?
              end; simpl; try done; try (f_equal; lia).
  all: match goal with
       | |- after_call _ ?out = _ => destruct out as [? [[]|?]]
       end; simpl; try done; f_equal; lia.
Qed.

Lemma process_loop_app_r fuel (l1 l2 : list str) j doc :
  process_loop fuel (l1 ++ l2) (length l1 + j) doc
  = process_loop fuel l2 j doc.
Proof.
  revert j doc. induction fuel as [|fuel IH]; intros j doc; [done|].
  simpl. rewrite lookup_app_r, Nat.add_comm, Nat.add_sub by lia.
  destruct (l2 !! j) as [raw|]; [|done].
  rewrite Nat.add_comm, loop_body_app_r.
  destruct (loop_body l2 j raw doc) as [j' d|d e]; simpl; [|done].
  apply IH.
Qed.

Lemma process_loop_app_l fuel (l1 l2 : list str) i doc d1 r :
  (∀ l, last l1 = Some l → ch_pipe ∉ l) →
  i ≤ length l1 →
  process_loop fuel l1 i doc = Some (d1, r) →
  ∀ fuel2 out,
    process_loop fuel2 (l1 ++ l2) (length l1) d1 = Some out →
    process_loop (fuel + fuel2) (l1 ++ l2) i doc
    = match r with
      | Ok _ => Some out
      | Raise e => Some (d1, Raise e)
      end.
Proof.
  intros Hlast. revert i doc.
  induction fuel as [|fuel IH]; intros i doc Hi; [done|].
  intros Hrun fuel2 out Hout. simpl in Hrun.
  destruct (l1 !! i) as [raw|] eqn:Hraw.
  - simpl. rewrite lookup_app_l by (by eapply lookup_lt_Some).
    rewrite Hraw, loop_body_app_l by done.
    destruct (loop_body l1 i raw doc) as [i' d|d e] eqn:Hbody.
    + apply loop_body_progress in Hbody as [_ Hi']; [|done].
      by apply IH.
    + by injection Hrun as <- <-.
  - injection Hrun as <- <-. apply lookup_ge_None in Hraw.
    replace i with (length l1) by lia.
    eapply process_loop_mono; [done|lia].
Qed.

End concatenation.

(** X17. Two lists of lines put one after the other, the first of which
    does not end with a line that contains a pipe, are converted as the
    first and then, on the resulting document, the second; if the first
    raises, the whole raises in the same way and the second is not
    converted. *)
Theorem process_lines_app (doc : document) (l1 l2 : list str)
    (d1 : document) (r : result unit) :
  (∀ l, last l1 = Some l → ch_pipe ∉ l) →
  process_lines doc l1 = Some (d1, r) →
  process_lines doc (l1 ++ l2)
  = match r with
    | Ok _ => process_lines d1 l2
    | Raise e => Some (d1, Raise e)
    end.
Proof.
  intros Hlast Hrun. unfold process_lines in *.
  destruct (process_loop_total (S (length l2)) l2 0 d1) as [out Hout];
    [lia|].
  pose proof (process_loop_app_r (S (length l2)) l1 l2 0 d1) as Hr.
  rewrite Nat.add_0_r, Hout in Hr.
  pose proof (process_loop_app_l _ l1 l2 0 doc d1 r Hlast
                ltac:(lia) Hrun _ out Hr) as Hl.
  destruct (process_loop_total (S (length (l1 ++ l2))) (l1 ++ l2) 0 doc)
    as [out' Hout']; [lia|].
  rewrite Hout'.
  apply (process_loop_mono _ (S (length l1) + S (length l2))) in Hout';
    [|rewrite length_app; lia].
  rewrite Hl in Hout'. rewrite Hout. by destruct r.
Qed.

Lemma process_lines_app_witness :
  process_lines []
    ([line_of "| A |"; line_of "|---|"; line_of ""]
     ++ [line_of "|---|"; line_of "text"])
  = process_lines
      [Table [[ {| cell_text := lit "A"; cell_header := true |} ]];
       Paragraph []]
      [line_of "|---|"; line_of "text"].
Proof.
  apply (process_lines_app []
           [line_of "| A |"; line_of "|---|"; line_of ""]
           [line_of "|---|"; line_of "text"]
           [Table [[ {| cell_text := lit "A"; cell_header := true |} ]];
            Paragraph []]
           (Ok ())).
  - intros l [= <-]. by apply (bool_decide_unpack _).
  - reflexivity.
Defined.

(** ** The driver *)

Section driver.

Implicit Types (doc : document) (files : list str).

Lemma file_blocks_unreadable (fs : filesystem) (md_file : str) :
  readable fs md_file = false → file_blocks fs md_file = [].
Proof.
  unfold readable, file_blocks, file_ops, finished, process_markdown_file.
  by destruct (fs md_file).
Qed.

Lemma file_blocks_page_breaks (fs : filesystem) files :
  page_breaks (concat (file_blocks fs <$> files))
  = length (filter (finished fs) files).
Proof.
  induction files as [|md_file files IH]; [done|].
  change (concat (file_blocks fs <$> md_file :: files))
    with (file_blocks fs md_file ++ concat (file_blocks fs <$> files)).
  rewrite page_breaks_app, IH. unfold file_blocks.
  rewrite page_breaks_app, file_ops_page_breaks.
  destruct (finished fs md_file) eqn:Hfin.
  - rewrite filter_cons_True by (by apply Is_true_true_2). simpl. lia.
  - rewrite filter_cons_False by (by apply Is_true_false_2). simpl. lia.
Qed.

End driver.

(** X18. Merging a list of files given in two parts is merging the first
    part and then, on the document that this gives, the second part. *)
Theorem merge_files_app (fs : filesystem) (doc : document)
    (files1 files2 : list str) :
  ∃ doc1,
    merge_files fs doc files1 = Some doc1
    ∧ merge_files fs doc (files1 ++ files2) = merge_files fs doc1 files2.
Proof.
  eexists. split; [apply merge_files_blocks|].
  rewrite !merge_files_blocks, fmap_app, concat_app.
  by rewrite app_assoc.
Qed.

(** X19. Files that cannot be opened or read leave no trace in the
    document: merging a list of files gives the same document as merging
    only the readable ones among them. *)
Theorem merge_files_skips_unreadable (fs : filesystem) (doc : document)
    (files : list str) :
  merge_files fs doc files
  = merge_files fs doc (filter (readable fs) files).
Proof.
  rewrite !merge_files_blocks. do 2 f_equal.
  induction files as [|md_file files IH]; [done|].
  destruct (readable fs md_file) eqn:Hread.
  - rewrite filter_cons_True by (by apply Is_true_true_2).
    rewrite !fmap_cons. cbn [concat]. by rewrite IH.
  - rewrite filter_cons_False by (by apply Is_true_false_2).
    rewrite fmap_cons. cbn [concat]. by rewrite file_blocks_unreadable.
Qed.

(** X20. The document that [main] saves has, beyond the page breaks of the
    base document, one page break before the new content and one for
    each file whose processing finished. *)
Theorem main_page_break_count (input_docx : option document)
    (fs : filesystem) (markdown_files : list str) :
  ∃ out,
    main input_docx fs markdown_files = Some out
    ∧ page_breaks out
      = page_breaks (default [] input_docx) + 1
        + length (filter (finished fs) markdown_files).
Proof.
  eexists. split.
  { unfold main, add_page_break. apply merge_files_blocks. }
  by rewrite !page_breaks_app, file_blocks_page_breaks.
Qed.

(** ** More on what is emitted *)

Section emitted.

Implicit Types (doc : document) (lines : list str) (text line : str).

Lemma runs_text_app (p q : list run) :
  runs_text (p ++ q) = runs_text p ++ runs_text q.
Proof. unfold runs_text. by rewrite fmap_app, concat_app. Qed.

Lemma inline_loop_sublist text ms (parts : list run) cur :
  spans_from text cur ms →
  runs_text parts `sublist_of` take cur text →
  ∀ parts' cur', foldl (inline_step text) (parts, cur) ms = (parts', cur') →
    runs_text parts' `sublist_of` take cur' text.
Proof.
  revert parts cur. induction ms as [|[a b] ms IH]; intros parts cur Hms Hsub.
  - simpl. by intros ?? [= <- <-].
  - destruct Hms as (Hca & Hab & Hspan & Hms). intros parts' cur' Hfold.
    cbn [foldl] in Hfold.
    assert (runs_text
              (if bool_decide (cur < a)
               then parts ++ [(Py.slice cur a text, false, false)]
               else parts) `sublist_of` take a text) as Hgap.
    { rewrite (slice_take_snoc text cur a) by done. case_bool_decide.
      - rewrite runs_text_app. apply sublist_app; [done|].
        unfold runs_text. simpl. by rewrite app_nil_r.
      - by apply sublist_inserts_r. }
    assert (∀ inner (bo it : bool) (pre post : str),
              Py.slice a b text = pre ++ inner ++ post →
              runs_text
                ((if bool_decide (cur < a)
                  then parts ++ [(Py.slice cur a text, false, false)]
                  else parts) ++ [(inner, bo, it)])
              `sublist_of` take b text) as Hrun.
    { intros inner bo it pre post Hm.
      rewrite (slice_take_snoc text a b) by lia. rewrite runs_text_app.
      apply sublist_app; [done|]. rewrite Hm. unfold runs_text. simpl.
      rewrite app_nil_r. by apply sublist_inserts_l, sublist_inserts_r. }
    destruct Hspan as [(inner & Hm & Hin)|(inner & Hm & Hin)].
    + rewrite (inline_step_bold _ _ _ _ _ inner Hm) in Hfold.
      eapply IH; [done| |done]. by eapply Hrun.
    + rewrite (inline_step_italic _ _ _ _ _ inner Hm (proj1 Hin)) in Hfold.
      eapply IH; [done| |done]. by eapply Hrun.
Qed.

Lemma heading_text (prefix raw : str) :
  last prefix = Some ch_space →
  Py.startswith prefix (Py.rstrip raw) = true →
  Py.slice_from (length prefix) (Py.rstrip raw) ≠ []
  ∧ ∀ x, last (Py.slice_from (length prefix) (Py.rstrip raw)) = Some x →
         Py.isspace x = false.
Proof.
  intros Hsp [t Ht]%startswith_prefix. unfold Py.slice_from.
  rewrite Ht, drop_app_length.
  assert (∀ x, last (prefix ++ t) = Some x → Py.isspace x = false) as Hlast.
  { intros x Hx. rewrite <- Ht in Hx. by apply rstrip_last in Hx. }
  destruct t as [|c t].
  - rewrite app_nil_r in Hlast. by apply Hlast in Hsp.
  - split; [done|]. intros x Hx. apply Hlast.
    rewrite last_app. by rewrite Hx.
Qed.

Lemma add_runs_nonempty (parts : list run) (bold italic : bool)
    (runs : list run) :
  parts ≠ [] ∨ runs ≠ [] → (add_runs parts bold italic runs).1 ≠ [].
Proof.
  revert runs. induction parts as [|part parts IH]; intros runs H; simpl.
  - by destruct H.
  - destruct (Docx.set_text (run_text part)) as [w [[]|e]]; simpl.
    + apply IH. right. by destruct runs.
    + by destruct runs.
Qed.

(** The blocks of an iteration, once more: headings have a text, and a
    paragraph without runs only comes behind a table. *)
Lemma loop_body_chunk lines i (raw : str) :
  match loop_body lines i raw [] with
  | Next _ d | Raised d _ =>
      Forall (λ b, match b with
                   | Heading t _ =>
                       t ≠ [] ∧ ∀ x, last t = Some x → Py.isspace x = false
                   | _ => True
                   end) d
      ∧ (d = [] ∨ (∃ b, d = [b] ∧ b ≠ Paragraph [])
         ∨ ∃ grid, d = [Table grid; Paragraph []])
  end.
Proof.
  assert (match add_table_from_markdown [] lines i with
          | (d, _) =>
              Forall (λ b, match b with
                           | Heading t _ =>
                               t ≠ []
                               ∧ ∀ x, last t = Some x → Py.isspace x = false
                           | _ => True
                           end) d
              ∧ (d = [] ∨ (∃ b, d = [b] ∧ b ≠ Paragraph [])
                 ∨ ∃ grid, d = [Table grid; Paragraph []])
          end) as Htab.
  { unfold add_table_from_markdown.
    destruct (collect_table_lines _ _ _) as [idx table_lines].
    destruct table_lines as [|l table_lines]; [by split; [|left]|].
    destruct (fill_table _ _ _) as [grid [[]|e]]; simpl.
    - split; [by repeat constructor|]. right. right. by eexists.
    - split; [by repeat constructor|]. right. left. by eexists. }
  pose proof (add_runs_nonempty (parse_inline_markdown (Py.rstrip raw))
                false false []
                (or_introl (parse_inline_markdown_nonempty _))) as Hruns.
  unfold loop_body, after_call, add_heading, add_paragraph.
  destruct (add_table_from_markdown [] lines i) as [d [idx|e]].
  all: repeat match goal with
              | |- context [if ?b then _ else _] => destruct b eqn:?
              end; simpl; try done.
  all: try (split; [by constructor|by left]).
  all: try (match goal with
            | |- context [Docx.set_text ?t] =>
                destruct (Docx.set_text t) as [w [[]|e']]
            end; simpl;
            (split;
             [apply Forall_singleton;
              first [match goal with
                     | H : Py.startswith ?p _ = true |- _ =>
                         apply (heading_text p raw eq_refl H)
                     end
                    |done]
             |right; left; by eexists])).
  all: destruct (add_runs _ _ _ _) as [runs [[]|e']]; simpl in *;
    (split; [by apply Forall_singleton|]); right; left; eexists;
    (split; [done|]); by intros [= ->].
Qed.

(** A property of the document that every iteration keeps is kept by the
    loop. *)
Lemma process_loop_invariant (Q : list block → Prop) fuel lines i doc
    doc' r :
  (∀ i raw doc, lines !! i = Some raw → Q doc →
     match loop_body lines i raw doc with
     | Next _ d | Raised d _ => Q d
     end) →
  process_loop fuel lines i doc = Some (doc', r) →
  Q doc → Q doc'.
Proof.
  intros Hbody. revert i doc.
  induction fuel as [|fuel IH]; intros i doc; [done|].
  simpl. destruct (lines !! i) as [raw|] eqn:Hraw; [|by intros [= <- _]].
  specialize (Hbody i raw doc Hraw).
  destruct (loop_body lines i raw doc) as [i' d|d e].
  - intros Hrun Hdoc. eapply IH; [done|]. by apply Hbody.
  - intros [= <- _] Hdoc. by apply Hbody.
Qed.

(** What holds of every character of the line holds of every character
    of every run. *)
Lemma parse_inline_markdown_chars (P : N → Prop) text :
  Forall P text →
  Forall (λ part, Forall P (run_text part)) (parse_inline_markdown text).
Proof.
  intros Htext. unfold parse_inline_markdown.
  destruct (foldl (inline_step text) ([], 0) (Re.finditer text))
    as [parts cur] eqn:Hfold.
  apply inline_loop_sublist in Hfold;
    [|apply (finditer_from_spans [] text 0); lia|apply sublist_nil_l].
  assert (Forall (λ part, Forall P (run_text part)) parts) as Hparts.
  { change (Forall (Forall P ∘ run_text) parts).
    rewrite <- Forall_fmap. apply Forall_concat, Forall_forall.
    intros c Hc. rewrite Forall_forall in Htext. apply Htext.
    eapply elem_of_sublist in Hc; [|exact Hfold].
    eapply elem_of_sublist; [exact Hc|]. apply sublist_take. }
  assert (Forall (λ part, Forall P (run_text part))
            (if bool_decide (cur < length text)
             then parts ++ [(Py.slice_from cur text, false, false)]
             else parts)) as Hall.
  { case_bool_decide; [|done]. apply Forall_app. split; [done|].
    apply Forall_singleton. by apply Forall_drop. }
  destruct (if bool_decide (cur < length text) then _ else parts); [|done].
  by apply Forall_singleton.
Qed.

End emitted.

(** X21. Every heading that the converter emits has a text that is not
    empty and does not end with whitespace. *)
Theorem process_lines_heading_texts (lines : list str) (ops : document)
    (r : result unit) (text : str) (level : nat) :
  process_lines [] lines = Some (ops, r) →
  Heading text level ∈ ops →
  text ≠ [] ∧ ∀ x, last text = Some x → Py.isspace x = false.
Proof.
  intros Hrun Hin.
  eapply (process_loop_blocks
            (λ b, match b with
                  | Heading t _ =>
                      t ≠ [] ∧ ∀ x, last t = Some x → Py.isspace x = false
                  | _ => True
                  end)) in Hrun; [| |done].
  - rewrite Forall_forall in Hrun. by apply Hrun in Hin.
  - intros i raw _. pose proof (loop_body_chunk lines i raw) as Hchunk.
    by destruct (loop_body lines i raw []); destruct Hchunk.
Qed.

Lemma process_lines_heading_texts_witness :
  lit " Results" ≠ []
  ∧ ∀ x, last (lit " Results") = Some x → Py.isspace x = false.
Proof.
  apply (process_lines_heading_texts
           [lit "#  Results   "; line_of "# "]
           [Heading (lit " Results") 1; Paragraph [(lit "#", false, false)]]
           (Ok ()) (lit " Results") 1).
  - reflexivity.
  - by left.
Defined.

(** X22. A paragraph without runs is only ever the spacer behind a table:
    wherever the emitted blocks hold one, the block before it is a
    table. *)
Theorem process_lines_spacers (lines : list str) (ops : document)
    (r : result unit) (k : nat) :
  process_lines [] lines = Some (ops, r) →
  ops !! k = Some (Paragraph []) →
  ∃ k' grid, k = S k' ∧ ops !! k' = Some (Table grid).
Proof.
  intros Hrun. revert k.
  refine (process_loop_invariant
            (λ doc, ∀ k, doc !! k = Some (Paragraph []) →
               ∃ k' grid, k = S k' ∧ doc !! k' = Some (Table grid))
            _ lines 0 [] ops r _ Hrun _); [|by intros k Hk].
  intros i raw doc Hraw Hdoc. rewrite loop_body_frame.
  pose proof (loop_body_chunk lines i raw) as Hchunk.
  assert (∀ d,
            (d = [] ∨ (∃ b, d = [b] ∧ b ≠ Paragraph [])
             ∨ ∃ grid, d = [Table grid; Paragraph []]) →
            ∀ k, (doc ++ d) !! k = Some (Paragraph []) →
              ∃ k' grid, k = S k' ∧ (doc ++ d) !! k' = Some (Table grid))
    as Happ.
  { intros d Hd k Hk.
    destruct (decide (k < length doc)) as [Hlt|Hge].
    - rewrite lookup_app_l in Hk by done.
      destruct (Hdoc k Hk) as (k' & grid & -> & Hk').
      exists k', grid. split; [done|]. by rewrite lookup_app_l by lia.
    - rewrite lookup_app_r in Hk by lia.
      destruct Hd as [->|[(b & -> & Hb)|(grid & ->)]].
      + done.
      + destruct (k - length doc) as [|n] eqn:Hn; simpl in Hk; [|done].
        by injection Hk as ->.
      + destruct (k - length doc) as [|[|n]] eqn:Hn; simpl in Hk;
          [done| |done].
        exists (length doc), grid. split; [lia|].
        by rewrite lookup_app_r, Nat.sub_diag by lia. }
  destruct (loop_body lines i raw []) as [i' d|d e]; simpl;
    apply Happ; by destruct Hchunk.
Qed.

Lemma process_lines_spacers_witness :
  ∃ k' grid,
    1 = S k'
    ∧ [Table [[ {| cell_text := lit "A"; cell_header := true |} ]];
       Paragraph []; Paragraph [(lit "text", false, false)]] !! k'
      = Some (Table grid).
Proof.
  apply (process_lines_spacers
           [line_of "| A |"; line_of "|---|"; line_of ""; line_of "text"]
           [Table [[ {| cell_text := lit "A"; cell_header := true |} ]];
            Paragraph []; Paragraph [(lit "text", false, false)]]
           (Ok ()) 1); reflexivity.
Defined.

(** X23. The concatenated texts of the runs are the line with some of its
    characters left out, in the same order: the tokenizer never adds a
    character and never moves one. *)
Theorem parse_inline_markdown_sublist (text : str) :
  runs_text (parse_inline_markdown text) `sublist_of` text.
Proof.
  unfold parse_inline_markdown.
  destruct (foldl (inline_step text) ([], 0) (Re.finditer text))
    as [parts cur] eqn:Hfold.
  apply inline_loop_sublist in Hfold;
    [|apply (finditer_from_spans [] text 0); lia|apply sublist_nil_l].
  assert (runs_text
            (if bool_decide (cur < length text)
             then parts ++ [(Py.slice_from cur text, false, false)]
             else parts) `sublist_of` text) as Hall.
  { assert (∀ t, t = take cur text ++ drop cur text →
              runs_text
                (if bool_decide (cur < length text)
                 then parts ++ [(Py.slice_from cur text, false, false)]
                 else parts) `sublist_of` t) as Ht;
      [|apply Ht; by rewrite take_drop].
    intros t ->. case_bool_decide.
    - rewrite runs_text_app. apply sublist_app; [done|].
      unfold runs_text. simpl. by rewrite app_nil_r.
    - by apply sublist_inserts_r. }
  destruct (if bool_decide (cur < length text) then _ else parts); [|done].
  unfold runs_text. simpl. by rewrite app_nil_r.
Qed.

(** ** Lines whose asterisks are all delimiters *)

Section marked.

Implicit Types (s text inner pre post : str) (ps : list piece).

Lemma contains_stars_no_star inner :
  ch_star ∉ inner → Py.contains (lit "**") (inner ++ [ch_star]) = false.
Proof.
  induction inner as [|c inner IH]; intros Hst; [done|].
  apply not_elem_of_cons in Hst as [Hc Hst].
  cbn [app Py.contains]. rewrite (IH Hst), orb_false_r.
  simpl. by rewrite (bool_decide_eq_false_2 (ch_star = c)) by done.
Qed.

Lemma match_here_emph inner post :
  inner ≠ [] → italic_inner inner →
  Re.match_here (([ch_star] ++ inner ++ [ch_star]) ++ post)
  = Some (length ([ch_star] ++ inner ++ [ch_star])).
Proof.
  intros Hne Hin. unfold Re.match_here.
  assert ((if Py.startswith [ch_star; ch_star]
                (([ch_star] ++ inner ++ [ch_star]) ++ post)
           then (λ k, k + 4)
                <$> Re.lazy_to_star2
                      (drop 2 (([ch_star] ++ inner ++ [ch_star]) ++ post))
           else None) = None) as ->.
  { destruct inner as [|c inner]; [done|].
    destruct Hin as [[Hc _]%not_elem_of_cons _]. simpl.
    by rewrite (bool_decide_eq_false_2 (ch_star = c)) by done. }
  simpl. rewrite drop_0, <- app_assoc. simpl.
  rewrite lazy_to_star_app by done. simpl.
  rewrite length_app. simpl. f_equal. lia.
Qed.

(** The loop over the matches never loses a run. *)
Lemma inline_loop_grows text ms (parts : list run) cur parts' cur' :
  foldl (inline_step text) (parts, cur) ms = (parts', cur') →
  parts ≠ [] → parts' ≠ [].
Proof.
  revert parts cur. induction ms as [|[a b] ms IH]; intros parts cur.
  - by intros [= <- <-].
  - cbn [foldl]. unfold inline_step at 2.
    intros Hfold Hne. eapply IH; [exact Hfold|].
    repeat match goal with
           | |- context [if ?c then _ else _] => destruct c
           end; by destruct parts.
Qed.

(** A span at the head of what is left of the line is the next match. *)
Lemma finditer_from_span m rest pos :
  m ≠ [] →
  Re.match_here (m ++ rest) = Some (length m) →
  Re.finditer_from 0 pos (m ++ rest)
  = (pos, pos + length m) :: Re.finditer_from 0 (pos + length m) rest.
Proof.
  intros Hm Hmatch. destruct m as [|c m]; [done|].
  cbn [app Re.finditer_from] in *. rewrite Hmatch. f_equal.
  cbn [length]. replace (S (length m) - 1) with (length m) by lia.
  rewrite finditer_from_skip. f_equal. lia.
Qed.

Lemma slice_pending pre rest cur :
  cur ≤ length pre →
  Py.slice cur (length pre) (pre ++ rest) = drop cur pre.
Proof.
  intros Hcur. unfold Py.slice. rewrite drop_app_le by done.
  rewrite take_app_le by (rewrite length_drop; lia).
  apply take_ge. rewrite length_drop. lia.
Qed.

Lemma slice_span pre m rest :
  Py.slice (length pre) (length pre + length m) (pre ++ m ++ rest) = m.
Proof.
  unfold Py.slice. rewrite drop_app_length.
  replace (length pre + length m - length pre) with (length m) by lia.
  apply take_app_length.
Qed.

(** The runs of the pending text and of a span of inner text [inner]. *)
Lemma runs_text_span (parts : list run) pre rest cur inner (bo it : bool) :
  cur ≤ length pre →
  runs_text
    ((if bool_decide (cur < length pre)
      then parts
           ++ [(Py.slice cur (length pre) (pre ++ rest), false, false)]
      else parts) ++ [(inner, bo, it)])
  = runs_text parts ++ drop cur pre ++ inner.
Proof.
  intros Hcur. rewrite slice_pending by done. case_bool_decide.
  - rewrite !runs_text_app. unfold runs_text at 2 3. simpl.
    by rewrite !app_nil_r, <- app_assoc.
  - rewrite runs_text_app. unfold runs_text at 2. simpl.
    rewrite drop_ge by lia. by rewrite app_nil_r.
Qed.

(** The loop over the matches of a line that continues with the pieces
    [ps]: it emits, behind the runs it has, the pending text and the
    pieces without their delimiters. *)
Lemma inline_loop_markup ps pre (parts : list run) cur parts' cur' :
  Forall well_marked ps →
  cur ≤ length pre →
  ch_star ∉ drop cur pre →
  foldl (inline_step (pre ++ markup ps)) (parts, cur)
    (Re.finditer_from 0 (length pre) (markup ps)) = (parts', cur') →
  runs_text parts' ++ drop cur' (pre ++ markup ps)
  = runs_text parts ++ drop cur pre ++ without_stars (markup ps)
  ∧ (parts' = [] → parts = [] ∧ ch_star ∉ drop cur (pre ++ markup ps)).
Proof.
  intros Hps. revert pre parts cur.
  induction Hps as [|p ps Hp _ IH]; intros pre parts cur Hcur Hpend.
  - unfold markup. simpl. rewrite !app_nil_r. by intros [= <- <-].
  - unfold markup. cbn [fmap list_fmap concat]. fold (markup ps).
    assert (∀ m inner (bo it : bool),
      piece_source p = m → m ≠ [] → ch_star ∉ inner →
      without_stars m = inner →
      Re.match_here (m ++ markup ps) = Some (length m) →
      (∀ parts cur,
         inline_step (pre ++ m ++ markup ps) (parts, cur)
           (length pre, length pre + length m)
         = ((if bool_decide (cur < length pre)
             then parts
                  ++ [(Py.slice cur (length pre) (pre ++ m ++ markup ps),
                       false, false)]
             else parts) ++ [(inner, bo, it)], length pre + length m)) →
      foldl (inline_step (pre ++ piece_source p ++ markup ps)) (parts, cur)
        (Re.finditer_from 0 (length pre) (piece_source p ++ markup ps))
      = (parts', cur') →
      runs_text parts' ++ drop cur' (pre ++ piece_source p ++ markup ps)
      = runs_text parts ++ drop cur pre
        ++ without_stars (piece_source p ++ markup ps)
      ∧ (parts' = [] →
         parts = []
         ∧ ch_star ∉ drop cur (pre ++ piece_source p ++ markup ps)))
      as Hspan.
    { intros m inner bo it -> Hm Hinner Hwo Hmatch Hstep.
      rewrite finditer_from_span by done. cbn [foldl]. rewrite Hstep.
      replace (length pre + length m) with (length (pre ++ m))
        by apply length_app.
      rewrite (app_assoc pre m). intros Hfold.
      pose proof (inline_loop_grows _ _ _ _ _ _ Hfold) as Hgrow.
      apply IH in Hfold as [Hfold _];
        [|done|rewrite drop_all; apply not_elem_of_nil].
      split.
      - rewrite Hfold. rewrite <- (app_assoc pre m).
        rewrite runs_text_span by done.
        rewrite drop_all. rewrite without_stars_app, Hwo.
        by rewrite <- !app_assoc.
      - intros ->. destruct Hgrow; [|done].
        by destruct (if bool_decide (cur < length pre) then _ else parts). }
    destruct p as [t|inner|inner]; cbn [piece_source well_marked] in *.
    + rewrite finditer_from_plain_prefix by done.
      replace (length pre + length t) with (length (pre ++ t))
        by apply length_app.
      rewrite (app_assoc pre t). intros Hfold.
      apply IH in Hfold as [Hfold Hnil].
      * split.
        -- rewrite Hfold, drop_app_le by done.
           rewrite without_stars_app, (without_stars_id t) by done.
           by rewrite <- !app_assoc.
        -- intros Hp'. by destruct (Hnil Hp') as [-> Hno].
      * rewrite length_app. lia.
      * rewrite drop_app_le by done. rewrite not_elem_of_app. by split.
    + destruct Hp as [Hst Hnl].
      apply (Hspan _ inner true false eq_refl); [done|done| | |].
      * rewrite !without_stars_app, (without_stars_id inner) by done.
        by rewrite app_nil_r.
      * apply match_here_bold. split; [done|].
        by apply contains_stars_no_star.
      * intros parts0 cur0. apply inline_step_bold, slice_span.
    + destruct Hp as (Hne & Hst & Hnl).
      apply (Hspan _ inner (bool_decide (inner = []))
               (bool_decide (inner ≠ [])) eq_refl); [done|done| | |].
      * rewrite !without_stars_app, (without_stars_id inner) by done.
        by rewrite app_nil_r.
      * by apply match_here_emph.
      * intros parts0 cur0. apply inline_step_italic; [|done].
        apply slice_span.
Qed.

End marked.




(** ** Files that are converted to the end *)

Section stored.

Implicit Types (doc : document) (lines : list str) (text : str).

Lemma storable_Forall text :
  storable text ↔ Forall (λ c, Docx.xml_char c) text.
Proof. apply forallb_True. Qed.

Lemma storable_slice_from k text :
  storable text → storable (Py.slice_from k text).
Proof. rewrite !storable_Forall. apply Forall_drop. Qed.

Lemma parse_inline_markdown_storable text :
  storable text →
  Forall (λ part, storable (run_text part)) (parse_inline_markdown text).
Proof.
  rewrite storable_Forall. intros Htext.
  eapply Forall_impl; [by apply parse_inline_markdown_chars|].
  intros part Hpart. by apply storable_Forall.
Qed.

Lemma add_heading_storable doc text level :
  storable text →
  add_heading doc text level = (doc ++ [Heading text level], Ok ()).
Proof. intros H. unfold add_heading. by rewrite set_text_storable. Qed.

Lemma add_runs_storable (parts : list run) (bold italic : bool)
    (runs : list run) :
  Forall (λ part, storable (run_text part)) parts →
  add_runs parts bold italic runs
  = (runs ++ ((λ part : run,
                 (run_text part, bold || run_bold part,
                  italic || run_italic part)) <$> parts), Ok ()).
Proof.
  intros Hparts. revert runs.
  induction Hparts as [|part parts Hpart _ IH]; intros runs; simpl.
  - by rewrite app_nil_r.
  - rewrite (set_text_storable _ Hpart), IH. by rewrite <- app_assoc.
Qed.

Lemma add_paragraph_storable doc text (bold italic : bool) :
  storable text →
  add_paragraph doc text bold italic
  = (doc ++ [Paragraph ((λ part : run,
                           (run_text part, bold || run_bold part,
                            italic || run_italic part))
                        <$> parse_inline_markdown text)], Ok ()).
Proof.
  intros H. unfold add_paragraph.
  by rewrite add_runs_storable by (by apply parse_inline_markdown_storable).
Qed.

Lemma loop_body_no_pipe lines i (raw : str) doc :
  ch_pipe ∉ raw →
  storable (Py.rstrip raw) →
  loop_body lines i raw doc = Next (i + 1) (doc ++ line_blocks raw).
Proof.
  intros Hraw Hst. rewrite loop_body_frame. unfold line_blocks, loop_body.
  rewrite !table_start_no_pipe by done.
  repeat match goal with
         | |- context [if ?b then _ else _] => destruct b eqn:?
         end;
    rewrite ?add_heading_storable by (by apply storable_slice_from);
    rewrite ?add_paragraph_storable by done; done.
Qed.

Lemma process_loop_no_pipe fuel lines i doc :
  Forall (λ raw, ch_pipe ∉ raw) lines →
  Forall (λ raw, storable (Py.rstrip raw)) lines →
  length lines - i < fuel →
  process_loop fuel lines i doc
  = Some (doc ++ concat (line_blocks <$> drop i lines), Ok ()).
Proof.
  intros Hlines Hst. revert i doc.
  induction fuel as [|fuel IH]; intros i doc Hfuel; [lia|].
  simpl. destruct (lines !! i) as [raw|] eqn:Hraw.
  - rewrite loop_body_no_pipe.
    + apply lookup_lt_Some in Hraw as Hlt. rewrite IH by lia.
      rewrite (drop_S _ _ _ Hraw). simpl.
      by rewrite <- app_assoc, Nat.add_1_r.
    + rewrite Forall_lookup in Hlines. by eapply Hlines.
    + rewrite Forall_lookup in Hst. by eapply (Hst i raw).
  - apply lookup_ge_None in Hraw. rewrite drop_ge by done.
    simpl. by rewrite app_nil_r.
Qed.

(** An iteration outside the table branch does not raise when the text
    of the line is stored. *)
Lemma loop_body_stored lines i (raw : str) doc :
  table_branch lines i raw = false →
  storable (Py.rstrip raw) →
  ∃ d, loop_body lines i raw doc = Next (i + 1) d.
Proof.
  unfold table_branch, loop_body. intros H Hst.
  repeat match goal with
         | |- context [if ?b then _ else _] => destruct b eqn:?
         end;
    rewrite ?add_heading_storable by (by apply storable_slice_from);
    rewrite ?add_paragraph_storable by done;
    first [exfalso; by simpl in H | by eexists].
Qed.

(** The loop cannot raise where no iteration that it reaches does. *)
Lemma process_loop_reach_ok fuel lines doc0 i doc doc' r :
  (∀ i doc raw,
     rtc (loop_step lines) (0, doc0) (i, doc) →
     lines !! i = Some raw →
     ∃ i' d, loop_body lines i raw doc = Next i' d) →
  rtc (loop_step lines) (0, doc0) (i, doc) →
  process_loop fuel lines i doc = Some (doc', r) → r = Ok ().
Proof.
  intros Hbody. revert i doc.
  induction fuel as [|fuel IH]; intros i doc Hreach; [done|].
  simpl. destruct (lines !! i) as [raw|] eqn:Hraw; [|by intros [= _ <-]].
  destruct (Hbody i doc raw Hreach Hraw) as (i' & d & Hnext).
  rewrite Hnext. apply IH. eapply rtc_r; [done|]. by econstructor.
Qed.

End stored.

(** X13. A file in which no line contains a pipe, and in which python-docx
    stores the text of every line (trailing whitespace apart), is
    converted line by line: the result is the concatenation, in order,
    of what each line gives when converted on its own, and no exception
    is raised. *)
Theorem process_lines_no_pipe (doc : document) (lines : list str) :
  Forall (λ raw, ch_pipe ∉ raw) lines →
  Forall (λ raw, storable (Py.rstrip raw)) lines →
  process_lines doc lines
  = Some (doc ++ concat (line_blocks <$> lines), Ok ()).
Proof.
  intros Hlines Hst. unfold process_lines.
  rewrite process_loop_no_pipe by (done || lia). by rewrite drop_0.
Qed.

Lemma process_lines_no_pipe_witness :
  process_lines []
    [line_of "# Title"; line_of ""; line_of "Some **bold** text.";
     line_of "---"]
  = Some
      ([] ++ concat
               (line_blocks
                <$> [line_of "# Title"; line_of "";
                     line_of "Some **bold** text."; line_of "---"]),
       Ok ()).
Proof.
  apply (process_lines_no_pipe []
           [line_of "# Title"; line_of ""; line_of "Some **bold** text.";
            line_of "---"]).
  - repeat constructor; by apply (bool_decide_unpack _).
  - by repeat constructor.
Defined.

(** X14. A file is converted without an exception when, at every line
    that the loop reaches, either the line starts a table block in which
    no row has more cells than the first row and python-docx stores every
    cell text, or the line does not start a table block and python-docx
    stores its text (trailing whitespace apart). *)
Theorem process_lines_tables_fit (doc : document) (lines : list str) :
  (∀ i doc_i raw,
     rtc (loop_step lines) (0, doc) (i, doc_i) →
     lines !! i = Some raw →
     if table_branch lines i raw
     then ∀ header data,
            table_rows_at lines i = header :: data →
            Forall (λ row_data, length row_data ≤ length header) data
            ∧ Forall (λ row_data, all_storable row_data) (header :: data)
     else storable (Py.rstrip raw)) →
  ∃ ops, process_lines doc lines = Some (doc ++ ops, Ok ()).
Proof.
  intros Hfit.
  destruct (process_lines_total doc lines) as (ops & r & Hrun & _).
  exists ops. rewrite Hrun. do 2 f_equal.
  eapply (process_loop_reach_ok _ lines doc 0 doc); [|done|exact Hrun].
  intros i d raw Hreach Hraw. specialize (Hfit i d raw Hreach Hraw).
  destruct (table_branch lines i raw) eqn:Hbranch.
  - rewrite (loop_body_table _ _ _ _ Hbranch).
    destruct (table_rows_at lines i) as [|header data] eqn:Hrows.
    + rewrite (add_table_from_markdown_empty _ _ _ Hrows). by eexists _, _.
    + destruct (Hfit header data eq_refl) as [Hlen Hst].
      rewrite (add_table_from_markdown_fits _ _ _ _ _ Hrows Hlen Hst).
      by eexists _, _.
  - destruct (loop_body_stored lines i raw d Hbranch Hfit) as [d' ->].
    by eexists _, _.
Qed.

Lemma process_lines_tables_fit_witness :
  ∃ ops,
    process_lines []
      [line_of "## Sample"; line_of "| Age | n |"; line_of "|---|---|";
       line_of "| 18-24 |"]
    = Some ([] ++ ops, Ok ()).
Proof.
  apply (process_lines_tables_fit []
           [line_of "## Sample"; line_of "| Age | n |"; line_of "|---|---|";
            line_of "| 18-24 |"]).
  intros i doc_i raw _ Hraw.
  destruct i as [|[|[|[|i]]]]; simplify_eq/=; try (by vm_compute).
  vm_compute. intros header data [= <- <-]. split; repeat constructor.
Defined.
